(** * PigWeigh preprocessing diagnostic: evaluation, scoring and ranking

    A shallow embedding of the evaluation loop of [debug_model.py]
    ([main], from "PREPROCESSING COMPARISON" to the recommendation) and of
    its helper [softmax].

    Numbers.  The script computes on NumPy float arrays and Python floats.
    Here every such value is a real number ([R]): sums, means, maxima,
    exponentials and comparisons are the exact ones.  Rounding, infinities
    and NaN are outside this model.

    Exceptions.  A computation that can raise returns an [option]; [None]
    is an exception that nothing in [main] catches.  The only call wrapped
    in [try]/[except] is [run_inference]; its outcome is a sum, [inl msg]
    for a caught exception and [inr raw] for an output vector. *)

From Stdlib Require Import String Ascii Decimal DecimalString DecimalNat.
From Stdlib Require Import ZArith.
From Stdlib Require Import Reals Lra Lia List Arith PeanoNat Bool.
From Stdlib Require Import Sorting.Sorted Sorting.Permutation.
Import ListNotations.

Open Scope R_scope.

(** ** Comparisons on floats, as booleans *)

Definition Rltb (x y : R) : bool := if Rlt_dec x y then true else false.
Definition Rgeb (x y : R) : bool := if Rge_dec x y then true else false.
Definition Rgtb (x y : R) : bool := Rltb y x.

(** ** The error monad of uncaught exceptions *)

Definition bind {A B : Type} (m : option A) (k : A -> option B) : option B :=
  match m with
  | Some a => k a
  | None => None
  end.

Notation "x <- m ;; k" := (bind m (fun x => k))
  (at level 61, m at next level, right associativity).

(** ** NumPy reductions on a vector *)

(** [a.sum()]: the empty sum is [0.0]. *)
Fixpoint sum (l : list R) : R :=
  match l with
  | [] => 0
  | x :: t => x + sum t
  end.

(** [a.max()]: raises [ValueError] on an empty array. *)
Fixpoint max_of (x : R) (l : list R) : R :=
  match l with
  | [] => x
  | y :: t => Rmax x (max_of y t)
  end.

Definition amax (l : list R) : option R :=
  match l with
  | [] => None
  | x :: t => Some (max_of x t)
  end.

(** [a.mean()] *)
Definition mean (l : list R) : R := sum l / INR (length l).

(** [np.argmax(a)]: the index of the first occurrence of the maximum;
    raises on an empty array. *)
Fixpoint argmax_from (i bi : nat) (bv : R) (l : list R) : nat :=
  match l with
  | [] => bi
  | y :: t => if Rltb bv y then argmax_from (S i) i y t
              else argmax_from (S i) bi bv t
  end.

Definition argmax (l : list R) : option nat :=
  match l with
  | [] => None
  | x :: t => Some (argmax_from 1 0%nat x t)
  end.

(** ** [softmax] (lines 73-75) *)

Definition softmax (logits : list R) : option (list R) :=
  m <- amax logits ;;
  let e := map (fun x => exp (x - m)) logits in
  Some (map (fun x => x / sum e) e).

(** ** Sorting *)

Section StableSort.
Context {A : Type}.
Variable key : A -> R.

(** A stable ascending sort that compares keys with [<] only. *)
Fixpoint insert (x : A) (l : list A) : list A :=
  match l with
  | [] => [x]
  | y :: t => if Rltb (key y) (key x) then y :: insert x t
              else x :: y :: t
  end.

Fixpoint sort_asc (l : list A) : list A :=
  match l with
  | [] => []
  | x :: t => insert x (sort_asc t)
  end.

(** [list.sort(key=..., reverse=True)]: the list is reversed, sorted
    ascending and stable, and reversed again, so that records with equal
    keys keep their original order. *)
Definition sort_desc (l : list A) : list A := rev (sort_asc (rev l)).
End StableSort.

(** [np.argsort(a)]: the indices that sort [a] ascending.  The default
    kind does not fix the order of equal values; this definition takes
    them in index order, one of the orders the call may return.  What is
    stated of the order of equal values is stated for every order the
    call may return ([sorts_ascending] below), not for this one. *)
Definition argsort (a : list R) : list nat :=
  sort_asc (fun i => nth i a 0) (seq 0 (length a)).

(** [l[-3:]]: the last three elements, or all of them when there are
    fewer. *)
Definition last3 {A : Type} (l : list A) : list A :=
  skipn (length l - 3) l.

(** [np.argsort(probs)[-3:][::-1]] (line 275) *)
Definition top3_of (probs : list R) : list nat :=
  rev (last3 (argsort probs)).

(** ** Labels *)

(** [str(i)] of a non-negative integer. *)
Definition str_of_nat (n : nat) : string :=
  NilEmpty.string_of_uint (Nat.to_uint n).

(** [labels[idx] if idx < len(labels) else f"idx_{idx}"] (lines 271, 296).
    [labels[idx]] is [nth_error]: out of range it raises [IndexError]. *)
Definition resolve_label (labels : list string) (idx : nat) : option string :=
  if (idx <? length labels)%nat then nth_error labels idx
  else Some ("idx_" ++ str_of_nat idx)%string.

(** ** One candidate (lines 265-277) *)

Record result : Type := mkResult {
  r_spread : R;
  r_name : string;
  r_top_lbl : string;
  r_top_conf : R;
  r_raw : list R;
  r_probs : list R;
  r_top3 : list nat
}.

Definition already_prob (raw : list R) : bool :=
  Rltb (Rabs (sum raw - 1)) (1 / 100).

Definition probs_of (raw : list R) : option (list R) :=
  if already_prob raw then Some raw else softmax raw.

Definition spread_of (raw : list R) : option R :=
  m <- amax raw ;; Some (m - mean raw).

Definition evaluate (labels : list string) (name : string) (raw : list R)
  : option result :=
  probs <- probs_of raw ;;
  spread <- spread_of raw ;;
  top_idx <- argmax probs ;;
  top_lbl <- resolve_label labels top_idx ;;
  p <- nth_error probs top_idx ;;
  let top_conf := p * 100 in
  let top3 := top3_of probs in
  Some (mkResult spread name top_lbl top_conf raw probs top3).

(** ** What the script prints *)

Inductive verdict : Type := Unreliable | Mediocre | Acceptable.

(** One constructor per [print] of the evaluation part; number formatting
    is left out, the values printed are kept. *)
Inductive line : Type :=
| PSection (title : string)
| PError (name msg : string)
| PRank (rank : nat) (r : result) (best_marker : bool)
| PTop (i : nat) (lbl : string) (pct : R)
| PBest (name label : string) (conf spread : R)
| PVerdict (v : verdict) (name : string) (spread : R)
| PUpdate.

(** The [if]/[elif]/[else] of lines 306-317. *)
Definition classify (best_spread : R) : verdict :=
  if Rltb best_spread 2 then Unreliable
  else if Rgeb best_spread 5 then Acceptable
  else Mediocre.

(** ** The evaluation loop (lines 250-283) *)

Record loop_state : Type := mkState {
  best_spread : R;
  best_name : string;
  best_label : string;
  best_conf : R;
  results : list result;
  printed : list line
}.

Definition init_state : loop_state :=
  mkState (-999) "" "" 0 [] [].

Section Main.
(** The model is a black box: a tensor type, the cast to the declared
    input element type with the batch dimension added (line 258), and
    the inference call, which either raises or returns the first row of
    the output tensor. *)
Variable tensor : Type.
Variable astype : tensor -> tensor.
Variable run_inference : tensor -> string + list R.
Variable labels : list string.

Definition step (st : loop_state) (c : string * tensor)
  : option loop_state :=
  let (name, norm) := c in
  let batch := astype norm in
  match run_inference batch with
  | inl e =>
      Some (mkState (best_spread st) (best_name st) (best_label st)
              (best_conf st) (results st)
              (printed st ++ [PError name e]))
  | inr raw =>
      r <- evaluate labels name raw ;;
      let results' := results st ++ [r] in
      if Rgtb (r_spread r) (best_spread st)
      then Some (mkState (r_spread r) name (r_top_lbl r) (r_top_conf r)
                   results' (printed st))
      else Some (mkState (best_spread st) (best_name st) (best_label st)
                   (best_conf st) results' (printed st))
  end.

Fixpoint loop (st : loop_state) (strategies : list (string * tensor))
  : option loop_state :=
  match strategies with
  | [] => Some st
  | c :: rest => st' <- step st c ;; loop st' rest
  end.

(** [results.sort(key=lambda r: r[0], reverse=True)] (line 286) *)
Definition ranked (st : loop_state) : list result :=
  sort_desc r_spread (results st).

(** Lines 295-297, for one result. *)
Fixpoint print_top3 (i : nat) (r : result) (top3 : list nat)
  : option (list line) :=
  match top3 with
  | [] => Some []
  | idx :: rest =>
      lbl <- resolve_label labels idx ;;
      p <- nth_error (r_probs r) idx ;;
      more <- print_top3 (S i) r rest ;;
      Some (PTop (S i) lbl (p * 100) :: more)
  end.

(** Lines 287-297. *)
Fixpoint print_ranking (rank : nat) (rs : list result)
  : option (list line) :=
  match rs with
  | [] => Some []
  | r :: rest =>
      tops <- print_top3 0 r (r_top3 r) ;;
      more <- print_ranking (S rank) rest ;;
      Some (PRank (S rank) r (rank =? 0)%nat :: tops ++ more)
  end.

(** Lines 299-320. *)
Definition recommendation (st : loop_state) : list line :=
  [ PSection "RECOMMENDATION";
    PBest (best_name st) (best_label st) (best_conf st) (best_spread st);
    PVerdict (classify (best_spread st)) (best_name st) (best_spread st);
    PUpdate ].

(** [main] from line 250 on: everything printed, or [None] when an
    exception escapes. *)
Definition main (strategies : list (string * tensor))
  : option (list line) :=
  st <- loop init_state strategies ;;
  lines <- print_ranking 0 (ranked st) ;;
  Some (PSection "PREPROCESSING COMPARISON"
          :: printed st ++ lines ++ recommendation st).

(** The candidates whose inference call returned, with their outputs,
    in generation order. *)
Fixpoint succeeded (strategies : list (string * tensor))
  : list (string * list R) :=
  match strategies with
  | [] => []
  | (name, norm) :: rest =>
      match run_inference (astype norm) with
      | inl _ => succeeded rest
      | inr raw => (name, raw) :: succeeded rest
      end
  end.

(** The candidates whose inference call raised, with the message. *)
Fixpoint failed (strategies : list (string * tensor))
  : list (string * string) :=
  match strategies with
  | [] => []
  | (name, norm) :: rest =>
      match run_inference (astype norm) with
      | inl e => (name, e) :: failed rest
      | inr _ => failed rest
      end
  end.
End Main.

(** ** Labels (lines 68-70 and 143-149) *)

Section Labels.
(** [str.isspace] on one character.  Which characters are whitespace is
    left open: strings here are sequences of [ascii], Python's are
    sequences of code points. *)
Variable isspace : ascii -> bool.

(** [s.lstrip()], [s.strip()] on the characters of a string. *)
Fixpoint lstrip_chars (l : list ascii) : list ascii :=
  match l with
  | [] => []
  | c :: t => if isspace c then lstrip_chars t else l
  end.

Definition strip_chars (l : list ascii) : list ascii :=
  rev (lstrip_chars (rev (lstrip_chars l))).

Definition strip (s : string) : string :=
  string_of_list_ascii (strip_chars (list_ascii_of_string s)).

(** [load_labels] (lines 68-70), on the lines that iterating over the
    open file yields: [[line.strip() for line in f if line.strip()]]. *)
Definition load_labels (lines : list string) : list string :=
  map strip (filter (fun line => negb (String.eqb (strip line) "")) lines).
End Labels.

(** [[str(i) for i in range(n)]] (line 148) *)
Definition fallback_labels (n : nat) : list string :=
  map str_of_nat (seq 0 n).

(** What line 146 or line 149 prints. *)
Inductive labels_line : Type :=
| PLabels (count : nat) (first last : string)
| PNoLabels.

(** What opening and reading the labels file gives: [FileNotFoundError],
    any other exception ([PermissionError], [IsADirectoryError],
    [UnicodeDecodeError], ...), or the lines of the file. *)
Inductive labels_file : Type :=
| NotFound
| Unreadable
| Lines (lines : list string).

(** Lines 143-149.  Only [FileNotFoundError] is caught; [n_out] is
    [out_det["shape"][1]].  [labels[0]] and [labels[-1]] raise
    [IndexError] on an empty list. *)
Definition labels_step (isspace : ascii -> bool)
    (file : labels_file) (n_out : nat)
  : option (list string * labels_line) :=
  match file with
  | Lines lines =>
      let labels := load_labels isspace lines in
      first <- nth_error labels 0 ;;
      last <- nth_error labels (length labels - 1) ;;
      Some (labels, PLabels (length labels) first last)
  | NotFound => Some (fallback_labels n_out, PNoLabels)
  | Unreadable => None
  end.

(** The ASCII characters for which [str.isspace] holds: tab to carriage
    return, the four separators 28 to 31, and the space. *)
Definition ascii_isspace (c : ascii) : bool :=
  let n := nat_of_ascii c in
  ((9 <=? n) && (n <=? 13) || (28 <=? n) && (n <=? 32))%nat.

(** ** Crop geometry of the resize strategies (lines 186-220)

    The PIL calls ([crop], [resize], [paste]) are outside the model; what
    is modelled is the integer arithmetic that decides the sizes and boxes
    passed to them.  [//] is floor division.  [int(a / b)] on integers is
    the quotient truncated toward zero (exact in floating point for
    operands below 2^53) and raises [ZeroDivisionError] when [b] is 0. *)

(** The box [(left, top, left + s, top + s)] that [center_crop_resize]
    crops from a [w] by [h] image (lines 188-192). *)
Definition center_crop_box (w h : Z) : Z * Z * Z * Z :=
  let s := Z.min w h in
  let left := ((w - s) / 2)%Z in
  let top := ((h - s) / 2)%Z in
  (left, top, (left + s)%Z, (top + s)%Z).

Definition int_truediv (a b : Z) : option Z :=
  if (b =? 0)%Z then None else Some (Z.quot a b).

(** [short_side_resize_center_crop] (lines 211-219): the size
    [(new_w, new_h)] the image is resized to, and the box cropped from
    the resized image. *)
Definition short_side_dims (w h size : Z) : option (Z * Z) :=
  if (w <? h)%Z
  then d <- int_truediv (h * size) w ;; Some (size, d)
  else d <- int_truediv (w * size) h ;; Some (d, size).

Definition short_side_box (new_w new_h size : Z) : Z * Z * Z * Z :=
  let left := ((new_w - size) / 2)%Z in
  let top := ((new_h - size) / 2)%Z in
  (left, top, (left + size)%Z, (top + size)%Z).

(** [letterbox_resize] (lines 203-205): where the resized image, of size
    [new_w] by [new_h], is pasted on the [size] by [size] canvas.  The
    two sizes come out of floating-point products (lines 199-200) and are
    inputs here. *)
Definition letterbox_paste (size new_w new_h : Z) : Z * Z :=
  (((size - new_w) / 2)%Z, ((size - new_h) / 2)%Z).

Definition short_side_geometry (w h size : Z)
  : option ((Z * Z) * (Z * Z * Z * Z)) :=
  dims <- short_side_dims w h size ;;
  Some (dims, short_side_box (fst dims) (snd dims) size).

(** ** Normalizations and the candidate list (lines 176-248)

    An image array of shape [H, W, 3] is the list of its pixels, each a
    triple of channel values (R, G, B); the operations below act on every
    pixel alike, so the layout in rows and columns plays no part. *)

Definition pixel : Type := (R * R * R)%type.
Definition image_array : Type := list pixel.

Definition IN_MEAN : pixel := (123.68, 116.779, 103.939).
Definition IN_STD : pixel := (58.393, 57.12, 57.375).

(** A scalar operation broadcast over the channels. *)
Definition each (f : R -> R) (p : pixel) : pixel :=
  let '(r, g, b) := p in (f r, f g, f b).

(** [(arr - IN_MEAN) / IN_STD] on one pixel: channel by channel. *)
Definition standardize (p : pixel) : pixel :=
  let '(r, g, b) := p in
  let '(mr, mg, mb) := IN_MEAN in
  let '(sr, sg, sb) := IN_STD in
  ((r - mr) / sr, (g - mg) / sg, (b - mb) / sb).

(** [base[:, :, ::-1]] (line 225): the channels reversed. *)
Definition bgr (arr : image_array) : image_array :=
  map (fun p : pixel => let '(r, g, b) := p in (b, g, r)) arr.

(** [variants] (lines 234-240) *)
Definition variants (arr : image_array) (label : string)
  : list (string * image_array) :=
  [ ((label ++ " | raw [0,255]")%string, arr);
    ((label ++ " | ÷127.5−1  [-1,1]")%string,
     map (each (fun x => x / 127.5 - 1.0)) arr);
    ((label ++ " | ÷255      [0,1]")%string,
     map (each (fun x => x / 255.0)) arr);
    ((label ++ " | ImageNet mean-std")%string, map standardize arr) ].

(** [strategies] (lines 242-248), from the four resized arrays. *)
Definition strategies (base base_cc base_lb base_ss : image_array)
  : list (string * image_array) :=
  variants base "stretch    "
  ++ variants base_cc "center-crop"
  ++ variants base_lb "letterbox  "
  ++ variants base_ss "short-side "
  ++ variants (bgr base) "stretch BGR".

(** * Vocabulary of the statements *)

(** [m] is the greatest element of [l]. *)
Definition is_max (m : R) (l : list R) : Prop :=
  In m l /\ Forall (fun x => x <= m) l.

(** The spec's words: subtract the maximum [m] before exponentiating, then
    normalise by the sum of the exponentials. *)
Definition stable_softmax_spec (m : R) (raw : list R) : list R :=
  map (fun x => exp (x - m) / sum (map (fun y => exp (y - m)) raw)) raw.

(** The textbook softmax. *)
Definition plain_softmax (raw : list R) : list R :=
  map (fun x => exp x / sum (map exp raw)) raw.

Section SortSpec.
Context {A : Type}.
Variable key : A -> R.

Definition key_le (a b : A) : Prop := key a <= key b.
Definition key_ge (a b : A) : Prop := key b <= key a.

(** Selects the elements whose key is [s]. *)
Definition has_key (s : R) (a : A) : bool :=
  if Req_dec_T (key a) s then true else false.
End SortSpec.

(** What [np.argsort] guarantees of the order it returns, whatever it
    does with equal values: a permutation of the indices of [a] along
    which the values do not decrease. *)
Definition sorts_ascending (a : list R) (order : list nat) : Prop :=
  Permutation order (seq 0 (length a)) /\
  StronglySorted (fun i j => nth i a 0 <= nth j a 0) order.

(** The claim's rule for ties: of two entries of [t] with equal values the
    lower index stands first. *)
Definition ties_lower_index_first (p : list R) (t : list nat) : Prop :=
  forall a b i j,
    nth_error t a = Some i -> nth_error t b = Some j -> (a < b)%nat ->
    nth i p 0 = nth j p 0 -> (i < j)%nat.

(** The entries of a result's top three index its probability vector. *)
Definition top3_in_range (r : result) : Prop :=
  Forall (fun i => (i < length (r_probs r))%nat) (r_top3 r).

(** Evaluates the outputs of the candidates that returned, in order;
    [None] as soon as one evaluation raises. *)
Fixpoint eval_all (labels : list string) (l : list (string * list R))
  : option (list result) :=
  match l with
  | [] => Some []
  | (name, raw) :: rest =>
      r <- evaluate labels name raw ;;
      rs <- eval_all labels rest ;;
      Some (r :: rs)
  end.

(** The running maximum of lines 279-283 on its own: the four [best_]
    variables, replaced when a spread is strictly greater. *)
Definition best : Type := (R * (string * string * R))%type.

Definition better (b : best) (r : result) : best :=
  if Rgtb (r_spread r) (fst b)
  then (r_spread r, (r_name r, r_top_lbl r, r_top_conf r))
  else b.

Definition best_of (st : loop_state) : best :=
  (best_spread st, (best_name st, best_label st, best_conf st)).

Definition perr (c : string * string) : line := PError (fst c) (snd c).

(** The state after the loop, from the state before it, the failures and
    the evaluated results. *)
Definition state_after (st : loop_state) (fs : list (string * string))
    (rs : list result) : loop_state :=
  let b := fold_left better rs (best_of st) in
  mkState (fst b) (fst (fst (snd b))) (snd (fst (snd b))) (snd (snd b))
    (results st ++ rs) (printed st ++ map perr fs).

Definition eval_pair (labels : list string) (c : string * list R)
  : option result :=
  evaluate labels (fst c) (snd c).

Definition fields (r : result) : best :=
  (r_spread r, (r_name r, r_top_lbl r, r_top_conf r)).

(** The output carries a recommendation: the summary of the best
    candidate. *)
Definition emits_recommendation (out : list line) : Prop :=
  exists name label conf spread, In (PBest name label conf spread) out.

(** A model with four candidates: the first call raises, the others
    return distributions of spread 0, 1/2 and 1/2. *)
Definition demo_infer (t : nat) : string + list R :=
  match t with
  | 0%nat => inl "input shape mismatch"%string
  | 1%nat => inr [1/2; 1/2]
  | 2%nat => inr [0; 1]
  | _ => inr [1; 0]
  end.

Definition demo_labels : list string := ["60kg"; "61kg"]%string.

Definition demo_candidates : list (string * nat) :=
  [("stretch", 0); ("center-crop", 1); ("letterbox", 2);
   ("short-side", 3)]%string%nat.

Definition demo_center : result :=
  mkResult 0 "center-crop" "60kg" 50 [1/2; 1/2] [1/2; 1/2] [1; 0]%nat.
Definition demo_letterbox : result :=
  mkResult (1/2) "letterbox" "61kg" 100 [0; 1] [0; 1] [1; 0]%nat.
Definition demo_short : result :=
  mkResult (1/2) "short-side" "60kg" 100 [1; 0] [1; 0] [0; 1]%nat.

Definition demo_state : loop_state :=
  mkState (1/2) "letterbox" "61kg" 100
    [demo_center; demo_letterbox; demo_short]
    [PError "stretch" "input shape mismatch"].

(** A model whose every call raises. *)
Definition broken_infer (t : nat) : string + list R :=
  inl "input shape mismatch"%string.

(** A string that [strip] leaves alone starts and ends with a character
    that is no whitespace. *)
Definition hd_ok (isspace : ascii -> bool) (l : list ascii) : Prop :=
  match l with
  | [] => True
  | c :: _ => isspace c = false
  end.

Definition trimmed (isspace : ascii -> bool) (s : string) : Prop :=
  hd_ok isspace (list_ascii_of_string s) /\
  hd_ok isspace (rev (list_ascii_of_string s)).

(** A line of whitespace only. *)
Definition blank (isspace : ascii -> bool) (s : string) : Prop :=
  Forall (fun c => isspace c = true) (list_ascii_of_string s).

(** The box [(x0, y0, x1, y1)] (left, top, right, bottom) lies inside a
    [w] by [h] image,
    is a square of side [s], and is centred: on each axis the two margins
    differ by at most one pixel, the extra pixel on the far side. *)
Definition centred_square (w h s : Z) (box : Z * Z * Z * Z) : Prop :=
  let '(x0, y0, x1, y1) := box in
  (0 <= x0 /\ x1 <= w /\ 0 <= y0 /\ y1 <= h /\
   x1 - x0 = s /\ y1 - y0 = s /\
   x0 <= w - x1 <= x0 + 1 /\ y0 <= h - y1 <= y0 + 1)%Z.

(** Every channel of the pixel lies between [lo] and [hi]. *)
Definition channels_in (lo hi : R) (p : pixel) : Prop :=
  let '(r, g, b) := p in
  lo <= r <= hi /\ lo <= g <= hi /\ lo <= b <= hi.

(** No string occurs twice. *)
Fixpoint distinctb (l : list string) : bool :=
  match l with
  | [] => true
  | x :: t => negb (existsb (String.eqb x) t) && distinctb t
  end.

(** The report of the run on [demo_candidates]. *)
Definition demo_out : list line :=
  [ PSection "PREPROCESSING COMPARISON";
    PError "stretch" "input shape mismatch";
    PRank 1 demo_letterbox true;
    PTop 1 "61kg" 100; PTop 2 "60kg" 0;
    PRank 2 demo_short false;
    PTop 1 "60kg" 100; PTop 2 "61kg" 0;
    PRank 3 demo_center false;
    PTop 1 "61kg" 50; PTop 2 "60kg" 50;
    PSection "RECOMMENDATION";
    PBest "letterbox" "61kg" 100 (1/2);
    PVerdict Unreliable "letterbox" (1/2);
    PUpdate ].

(** * Properties *)

(** ** Boolean comparisons *)

Lemma Rltb_true (x y : R) : Rltb x y = true <-> x < y.
Proof. unfold Rltb; destruct (Rlt_dec x y); split; intros; auto; discriminate. Qed.

Lemma Rltb_false (x y : R) : Rltb x y = false <-> y <= x.
Proof.
  unfold Rltb; destruct (Rlt_dec x y); split; intros; auto; try discriminate; lra.
Qed.

Lemma Rgeb_true (x y : R) : Rgeb x y = true <-> y <= x.
Proof.
  unfold Rgeb; destruct (Rge_dec x y); split; intros; auto; try discriminate; lra.
Qed.

Lemma Rgeb_false (x y : R) : Rgeb x y = false <-> x < y.
Proof.
  unfold Rgeb; destruct (Rge_dec x y); split; intros; auto; try discriminate; lra.
Qed.

(** Evaluation on concrete numbers: [rsolve] proves an order fact,
    [rbool] replaces each comparison by its value, [reval] runs a closed
    term. *)
Ltac rmax_step :=
  match goal with
  | |- context [Rmax ?a ?b] =>
      lazymatch a with context [Rmax _ _] => fail | _ => idtac end;
      lazymatch b with context [Rmax _ _] => fail | _ => idtac end;
      first [ rewrite (Rmax_left a b) by lra
            | rewrite (Rmax_right a b) by lra ]
  | |- context [Rabs ?a] =>
      first [ rewrite (Rabs_pos_eq a) by lra
            | rewrite (Rabs_left1 a) by lra ]
  end.

Ltac rsolve := repeat rmax_step; lra.

Ltac rbool :=
  repeat match goal with
    | |- context [Rltb ?a ?b] =>
        first [ rewrite (proj2 (Rltb_true a b)) by rsolve
              | rewrite (proj2 (Rltb_false a b)) by rsolve ]
    | |- context [Rgeb ?a ?b] =>
        first [ rewrite (proj2 (Rgeb_true a b)) by rsolve
              | rewrite (proj2 (Rgeb_false a b)) by rsolve ]
    end.

Ltac reval := repeat (progress (simpl; rbool)).

(** Equality of two records or lists that differ in how their numbers are
    written. *)
Ltac req :=
  match goal with
  | |- @eq R _ _ => rsolve
  | |- _ => reflexivity
  | |- _ => f_equal; req
  end.

(** ** The maximum and the mean *)

Lemma max_of_is_max (x : R) (t : list R) : is_max (max_of x t) (x :: t).
Proof.
  revert x; induction t as [|y t IH]; intros x; simpl.
  - split; [now left | repeat constructor; lra].
  - destruct (IH y) as [Hin Hall].
    unfold Rmax; destruct (Rle_dec x (max_of y t)) as [Hle|Hgt].
    + split; [now right|]. constructor; assumption.
    + split; [now left|]. constructor; [lra|].
      eapply Forall_impl; [|exact Hall]. simpl; intros; lra.
Qed.

Lemma amax_is_max (l : list R) (m : R) : amax l = Some m -> is_max m l.
Proof.
  destruct l as [|x t]; simpl; [discriminate|].
  intros [= <-]. apply max_of_is_max.
Qed.

Lemma is_max_unique (m m' : R) (l : list R) :
  is_max m l -> is_max m' l -> m = m'.
Proof.
  intros [Hin Hall] [Hin' Hall'].
  rewrite Forall_forall in Hall, Hall'.
  apply Hall' in Hin. apply Hall in Hin'. lra.
Qed.

Lemma sum_le_bound (m : R) (l : list R) :
  Forall (fun x => x <= m) l -> sum l <= INR (length l) * m.
Proof.
  induction 1 as [|x t Hx _ IH].
  - simpl; lra.
  - change (length (x :: t)) with (S (length t)).
    rewrite S_INR. simpl sum. lra.
Qed.

Lemma mean_le_max (m : R) (l : list R) : is_max m l -> mean l <= m.
Proof.
  intros [Hin Hall]. unfold mean.
  assert (Hpos : 0 < INR (length l)).
  { destruct l; [contradiction|]. apply lt_0_INR. simpl; lia. }
  apply sum_le_bound in Hall.
  apply Rmult_le_reg_r with (INR (length l)); [exact Hpos|].
  unfold Rdiv. rewrite Rmult_assoc, Rinv_l by lra. lra.
Qed.

Lemma spread_of_nonneg (raw : list R) (s : R) :
  spread_of raw = Some s -> 0 <= s.
Proof.
  unfold spread_of. destruct (amax raw) as [m|] eqn:E; simpl; [|discriminate].
  intros [= <-]. apply amax_is_max, mean_le_max in E. lra.
Qed.

(** ** Softmax *)

Lemma softmax_is_spec (raw : list R) (p : list R) :
  softmax raw = Some p ->
  exists m, is_max m raw /\ p = stable_softmax_spec m raw.
Proof.
  unfold softmax. destruct (amax raw) as [m|] eqn:E; simpl; [|discriminate].
  intros [= <-]. exists m; split; [now apply amax_is_max|].
  unfold stable_softmax_spec. now rewrite map_map.
Qed.

Lemma sum_map_scale (c : R) (l : list R) :
  sum (map (fun x => x * c) l) = sum l * c.
Proof. induction l as [|x t IH]; simpl; [lra | rewrite IH; lra]. Qed.

Lemma sum_exp_pos (f : R -> R) (l : list R) :
  l <> [] -> 0 < sum (map (fun x => exp (f x)) l).
Proof.
  destruct l as [|x t]; [congruence|]. intros _.
  revert x; induction t as [|y t IH]; intros x; simpl.
  - pose proof (exp_pos (f x)); lra.
  - pose proof (exp_pos (f x)). specialize (IH y). simpl in IH. lra.
Qed.

Lemma sum_exp_shift (m : R) (l : list R) :
  sum (map (fun y => exp (y - m)) l) = sum (map exp l) * exp (- m).
Proof.
  induction l as [|x t IH]; simpl; [lra|].
  rewrite IH. unfold Rminus. rewrite exp_plus. lra.
Qed.

(** Subtracting the maximum does not change the result. *)
Lemma stable_softmax_plain (m : R) (raw : list R) :
  stable_softmax_spec m raw = plain_softmax raw.
Proof.
  unfold stable_softmax_spec, plain_softmax.
  apply map_ext; intros x.
  rewrite sum_exp_shift. unfold Rminus at 1. rewrite exp_plus.
  destruct raw as [|y t].
  - simpl. unfold Rdiv. rewrite !Rmult_0_l, Rinv_0. lra.
  - assert (Hs : 0 < sum (map exp (y :: t))).
    { refine (sum_exp_pos (fun z => z) (y :: t) _). discriminate. }
    pose proof (exp_pos (- m)).
    field. split; lra.
Qed.

Lemma sum_stable_softmax (m : R) (raw : list R) :
  raw <> [] -> sum (stable_softmax_spec m raw) = 1.
Proof.
  intros Hne. unfold stable_softmax_spec.
  pose proof (sum_exp_pos (fun x => x - m) raw Hne) as Hpos.
  set (s := sum (map (fun y => exp (y - m)) raw)) in *.
  replace (map (fun x => exp (x - m) / s) raw)
    with (map (fun e => e * / s) (map (fun y => exp (y - m)) raw))
    by (rewrite map_map; reflexivity).
  rewrite sum_map_scale. fold s. field. lra.
Qed.

(** ** The stable sort *)

Lemma StronglySorted_snoc {A : Type} (Q : A -> A -> Prop) (l : list A) (a : A) :
  StronglySorted Q l -> Forall (fun b => Q b a) l -> StronglySorted Q (l ++ [a]).
Proof.
  induction 1 as [|b l Hs IH Hb]; intros Hall; simpl.
  - repeat constructor.
  - inversion Hall as [|? ? Hba Hall']; subst.
    constructor; [now apply IH|].
    apply Forall_app; split; [assumption | now constructor].
Qed.

Lemma StronglySorted_rev {A : Type} (Q : A -> A -> Prop) (l : list A) :
  StronglySorted Q l -> StronglySorted (fun a b => Q b a) (rev l).
Proof.
  induction 1 as [|a l Hs IH Ha]; simpl; [constructor|].
  apply StronglySorted_snoc; [assumption|].
  rewrite Forall_forall in *. intros b Hb. apply Ha. now apply in_rev.
Qed.

Lemma StronglySorted_app_inv {A : Type} (Q : A -> A -> Prop) (l1 l2 : list A) :
  StronglySorted Q (l1 ++ l2) ->
  StronglySorted Q l1 /\ StronglySorted Q l2 /\
  (forall x y, In x l1 -> In y l2 -> Q x y).
Proof.
  induction l1 as [|a l1 IH]; simpl; intros Hs.
  - repeat split; [constructor | assumption | contradiction].
  - apply StronglySorted_inv in Hs as [Hs Ha].
    destruct (IH Hs) as (H1 & H2 & H12).
    apply Forall_app in Ha as [Ha1 Ha2].
    repeat split; [now constructor | assumption |].
    intros x y [<-|Hx] Hy; [|now apply H12].
    rewrite Forall_forall in Ha2. now apply Ha2.
Qed.

Section SortFacts.
Context {A : Type}.
Variable key : A -> R.

Lemma has_key_true (s : R) (a : A) : has_key key s a = true <-> key a = s.
Proof.
  unfold has_key; destruct (Req_dec_T (key a) s); split; intros;
    auto; try discriminate; contradiction.
Qed.

Lemma insert_perm (x : A) (l : list A) :
  Permutation (insert key x l) (x :: l).
Proof.
  induction l as [|y t IH]; simpl; [reflexivity|].
  destruct (Rltb (key y) (key x)); [|reflexivity].
  rewrite IH. apply perm_swap.
Qed.

Lemma sort_asc_perm (l : list A) : Permutation (sort_asc key l) l.
Proof.
  induction l as [|x t IH]; simpl; [reflexivity|].
  rewrite insert_perm. now constructor.
Qed.

Lemma insert_sorted (x : A) (l : list A) :
  StronglySorted (key_le key) l -> StronglySorted (key_le key) (insert key x l).
Proof.
  induction 1 as [|y t Hs IH Hy]; simpl; [repeat constructor|].
  destruct (Rltb (key y) (key x)) eqn:E.
  - apply Rltb_true in E. constructor; [assumption|].
    rewrite insert_perm. constructor; [unfold key_le; lra | assumption].
  - apply Rltb_false in E. constructor; [now constructor|].
    constructor; [exact E|].
    eapply Forall_impl; [|exact Hy]. unfold key_le; simpl; intros; lra.
Qed.

Lemma sort_asc_sorted (l : list A) : StronglySorted (key_le key) (sort_asc key l).
Proof.
  induction l as [|x t IH]; simpl; [constructor | now apply insert_sorted].
Qed.

(** Stability: the elements of one key keep their order. *)
Lemma insert_stable (s : R) (x : A) (l : list A) :
  filter (has_key key s) (insert key x l) = filter (has_key key s) (x :: l).
Proof.
  induction l as [|y t IH]; [reflexivity|].
  simpl insert. destruct (Rltb (key y) (key x)) eqn:E; [|reflexivity].
  apply Rltb_true in E.
  change (filter (has_key key s) (y :: insert key x t))
    with (if has_key key s y then y :: filter (has_key key s) (insert key x t)
          else filter (has_key key s) (insert key x t)).
  rewrite IH. simpl.
  destruct (has_key key s y) eqn:Ey, (has_key key s x) eqn:Ex; try reflexivity.
  apply has_key_true in Ey, Ex. lra.
Qed.

Lemma sort_asc_stable (s : R) (l : list A) :
  filter (has_key key s) (sort_asc key l) = filter (has_key key s) l.
Proof.
  induction l as [|x t IH]; [reflexivity|].
  simpl sort_asc. rewrite insert_stable. simpl. now rewrite IH.
Qed.

Lemma sort_desc_perm (l : list A) : Permutation (sort_desc key l) l.
Proof.
  unfold sort_desc.
  rewrite <- Permutation_rev, sort_asc_perm. symmetry. apply Permutation_rev.
Qed.

Lemma sort_desc_sorted (l : list A) :
  StronglySorted (key_ge key) (sort_desc key l).
Proof.
  unfold sort_desc.
  exact (StronglySorted_rev (key_le key) _ (sort_asc_sorted (rev l))).
Qed.

Lemma sort_desc_stable (s : R) (l : list A) :
  filter (has_key key s) (sort_desc key l) = filter (has_key key s) l.
Proof.
  unfold sort_desc.
  now rewrite filter_rev, sort_asc_stable, filter_rev, rev_involutive.
Qed.

End SortFacts.

(** ** [argsort] and the top three *)

Lemma argsort_perm (a : list R) : Permutation (argsort a) (seq 0 (length a)).
Proof. apply sort_asc_perm. Qed.

Lemma argsort_split (a : list R) :
  argsort a = firstn (length (argsort a) - 3) (argsort a) ++ last3 (argsort a).
Proof. unfold last3. symmetry. apply firstn_skipn. Qed.

Lemma top3_of_length (p : list R) :
  length (top3_of p) = Nat.min 3 (length p).
Proof.
  unfold top3_of, last3. rewrite length_rev, length_skipn.
  rewrite (Permutation_length (argsort_perm p)), length_seq. lia.
Qed.

Lemma top3_of_in_range (p : list R) (i : nat) :
  In i (top3_of p) -> (i < length p)%nat.
Proof.
  unfold top3_of. rewrite <- in_rev. intros Hi.
  assert (Hin : In i (argsort p)).
  { rewrite argsort_split. apply in_or_app. now right. }
  apply (Permutation_in _ (argsort_perm p)), in_seq in Hin. lia.
Qed.

(** ** One candidate, taken apart *)

Lemma evaluate_inv (labels : list string) (name : string) (raw : list R)
    (r : result) :
  evaluate labels name raw = Some r ->
  exists probs spread top_idx top_lbl p,
    probs_of raw = Some probs /\ spread_of raw = Some spread /\
    argmax probs = Some top_idx /\
    resolve_label labels top_idx = Some top_lbl /\
    nth_error probs top_idx = Some p /\
    r = mkResult spread name top_lbl (p * 100) raw probs (top3_of probs).
Proof.
  unfold evaluate.
  destruct (probs_of raw) as [probs|] eqn:E1; simpl; [|discriminate].
  destruct (spread_of raw) as [spread|] eqn:E2; simpl; [|discriminate].
  destruct (argmax probs) as [top_idx|] eqn:E3; simpl; [|discriminate].
  destruct (resolve_label labels top_idx) as [top_lbl|] eqn:E4; simpl;
    [|discriminate].
  destruct (nth_error probs top_idx) as [p|] eqn:E5; simpl; [|discriminate].
  intros [= <-]. exists probs, spread, top_idx, top_lbl, p. auto 10.
Qed.

(** ** [argmax], label resolution, and when a candidate evaluates *)

Lemma argmax_from_range (l : list R) (i bi : nat) (bv : R) :
  (bi < i)%nat -> (argmax_from i bi bv l < i + length l)%nat.
Proof.
  revert i bi bv; induction l as [|y t IH]; intros i bi bv Hlt; simpl; [lia|].
  destruct (Rltb bv y).
  - specialize (IH (S i) i y). lia.
  - specialize (IH (S i) bi bv). lia.
Qed.

Lemma argmax_range (l : list R) (i : nat) :
  argmax l = Some i -> (i < length l)%nat.
Proof.
  destruct l as [|x t]; simpl; [discriminate|]. intros [= <-].
  pose proof (argmax_from_range t 1 0 x). lia.
Qed.

Lemma argmax_some (l : list R) : l <> [] -> exists i, argmax l = Some i.
Proof. destruct l; [congruence|]. intros _. simpl. eauto. Qed.

Lemma resolve_label_total (labels : list string) (idx : nat) :
  exists s, resolve_label labels idx = Some s.
Proof.
  unfold resolve_label. destruct (idx <? length labels)%nat eqn:E; [|eauto].
  apply Nat.ltb_lt in E.
  destruct (nth_error labels idx) eqn:En; [eauto|].
  apply nth_error_None in En. lia.
Qed.

Lemma softmax_length (raw p : list R) :
  softmax raw = Some p -> length p = length raw.
Proof.
  unfold softmax. destruct (amax raw); simpl; [|discriminate].
  intros [= <-]. now rewrite !length_map.
Qed.

Lemma probs_of_length (raw p : list R) :
  probs_of raw = Some p -> length p = length raw.
Proof.
  unfold probs_of. destruct (already_prob raw).
  - now intros [= <-].
  - apply softmax_length.
Qed.

Lemma probs_of_some (raw : list R) :
  raw <> [] -> exists p, probs_of raw = Some p.
Proof.
  intros Hne. unfold probs_of. destruct (already_prob raw); [eauto|].
  unfold softmax. destruct raw; [congruence|]. simpl. eauto.
Qed.

Lemma evaluate_nonempty (labels : list string) (name : string)
    (raw : list R) (r : result) :
  evaluate labels name raw = Some r -> raw <> [].
Proof.
  intros H. apply evaluate_inv in H
    as (probs & spread & _ & _ & _ & _ & Hs & _).
  intros ->. discriminate.
Qed.

(** A non-empty output vector always evaluates: nothing raises. *)
Lemma evaluate_total (labels : list string) (name : string) (raw : list R) :
  raw <> [] -> exists r, evaluate labels name raw = Some r.
Proof.
  intros Hne. unfold evaluate.
  destruct (probs_of_some raw Hne) as [probs Hp]. rewrite Hp; simpl.
  assert (Hs : exists s, spread_of raw = Some s).
  { unfold spread_of. destruct raw; [congruence|]. simpl. eauto. }
  destruct Hs as [s Hs]. rewrite Hs; simpl.
  assert (Hpne : probs <> []).
  { apply probs_of_length in Hp. destruct probs, raw; simpl in *;
      congruence. }
  destruct (argmax_some probs Hpne) as [i Hi]. rewrite Hi; simpl.
  destruct (resolve_label_total labels i) as [lbl Hl]. rewrite Hl; simpl.
  apply argmax_range in Hi.
  destruct (nth_error probs i) eqn:En; simpl; [eauto|].
  apply nth_error_None in En. lia.
Qed.

(** ** The loop as a whole *)

Lemma evaluate_name (labels : list string) (name : string) (raw : list R)
    (r : result) :
  evaluate labels name raw = Some r -> r_name r = name.
Proof.
  intros H. apply evaluate_inv in H as (? & ? & ? & ? & ? & _ & _ & _ & _ & _ & ->).
  reflexivity.
Qed.

Section LoopFacts.
Variable tensor : Type.
Variable astype : tensor -> tensor.
Variable run_inference : tensor -> string + list R.
Variable labels : list string.

Let loop' := loop tensor astype run_inference labels.
Let succeeded' := succeeded tensor astype run_inference.
Let failed' := failed tensor astype run_inference.

Lemma loop_eq (cs : list (string * tensor)) (st : loop_state) :
  loop' st cs
  = option_map (state_after st (failed' cs)) (eval_all labels (succeeded' cs)).
Proof.
  subst loop' succeeded' failed'.
  revert st; induction cs as [|[name norm] rest IH]; intros st.
  - simpl. unfold state_after; simpl. rewrite !app_nil_r.
    now destruct st.
  - simpl. destruct (run_inference (astype norm)) as [e|raw]; simpl.
    + rewrite IH. destruct (eval_all labels _) as [rs|]; simpl; [|reflexivity].
      f_equal. unfold state_after; simpl. now rewrite <- app_assoc.
    + destruct (evaluate labels name raw) as [r|] eqn:Er; simpl;
        [|reflexivity].
      pose proof (evaluate_name _ _ _ _ Er) as Hn.
      assert (Hstep : forall st1,
        results st1 = results st ++ [r] -> printed st1 = printed st ->
        best_of st1 = better (best_of st) r ->
        loop tensor astype run_inference labels st1 rest
        = option_map (state_after st (failed tensor astype run_inference rest))
            (rs <- eval_all labels (succeeded tensor astype run_inference rest) ;;
             Some (r :: rs))).
      { intros st1 Hr Hp Hb. rewrite IH.
        destruct (eval_all labels _) as [rs|]; simpl; [|reflexivity].
        f_equal. unfold state_after. rewrite Hr, Hp, Hb. simpl.
        now rewrite <- app_assoc. }
      unfold better, best_of. simpl.
      destruct (Rgtb (r_spread r) (best_spread st)) eqn:E.
      * apply Hstep; simpl; auto.
        unfold better, best_of; simpl. now rewrite E, Hn.
      * apply Hstep; simpl; auto.
        unfold better, best_of; simpl. now rewrite E.
Qed.
End LoopFacts.

Lemma eval_all_some (labels : list string) (l : list (string * list R)) :
  (forall name raw, In (name, raw) l -> raw <> []) ->
  exists rs, eval_all labels l = Some rs.
Proof.
  induction l as [|[name raw] rest IH]; intros Hne; simpl; [eauto|].
  destruct (evaluate_total labels name raw) as [r Hr].
  { apply (Hne name). now left. }
  destruct IH as [rs Hrs].
  { intros n x Hin. apply (Hne n). now right. }
  rewrite Hr, Hrs. simpl. eauto.
Qed.

Lemma eval_all_map (labels : list string) (l : list (string * list R))
    (rs : list result) :
  eval_all labels l = Some rs -> map Some rs = map (eval_pair labels) l.
Proof.
  revert rs; induction l as [|[name raw] rest IH]; intros rs; simpl.
  - now intros [= <-].
  - unfold eval_pair at 1; simpl.
    destruct (evaluate labels name raw) as [r|]; simpl; [|discriminate].
    destruct (eval_all labels rest) as [rs'|]; simpl; [|discriminate].
    intros [= <-]. simpl. f_equal. now apply IH.
Qed.

Lemma eval_all_in (labels : list string) (l : list (string * list R))
    (rs : list result) (r : result) :
  eval_all labels l = Some rs -> In r rs ->
  exists name raw, In (name, raw) l /\ evaluate labels name raw = Some r.
Proof.
  intros Hall Hin. apply eval_all_map in Hall.
  apply (in_map Some) in Hin. rewrite Hall in Hin.
  apply in_map_iff in Hin as [[name raw] [He Hin]].
  exists name, raw. split; assumption.
Qed.

Lemma eval_all_spread_nonneg (labels : list string)
    (l : list (string * list R)) (rs : list result) :
  eval_all labels l = Some rs -> Forall (fun r => 0 <= r_spread r) rs.
Proof.
  intros Hall. apply Forall_forall. intros r Hin.
  destruct (eval_all_in _ _ _ _ Hall Hin) as (name & raw & _ & He).
  apply evaluate_inv in He as (? & s & ? & ? & ? & _ & Hs & _ & _ & _ & ->).
  simpl. now apply spread_of_nonneg in Hs.
Qed.

(** ** The running maximum and the head of the sorted list *)

Lemma fold_better_below (k : R) (l : list result) (b : best) :
  fst b < k -> Forall (fun r => r_spread r < k) l ->
  fst (fold_left better l b) < k.
Proof.
  revert b; induction l as [|r t IH]; intros b Hb Hall; simpl; [assumption|].
  inversion Hall as [|? ? Hr Ht]; subst. apply IH; [|assumption].
  unfold better. destruct (Rgtb (r_spread r) (fst b)); assumption.
Qed.

Lemma fold_better_keep (l : list result) (b : best) :
  Forall (fun r => r_spread r <= fst b) l -> fold_left better l b = b.
Proof.
  revert b; induction l as [|r t IH]; intros b Hall; simpl; [reflexivity|].
  inversion Hall as [|? ? Hr Ht]; subst.
  assert (E : better b r = b).
  { unfold better, Rgtb. now rewrite (proj2 (Rltb_false _ _) Hr). }
  rewrite E. now apply IH.
Qed.

(** The running maximum picks the first result whose spread no other
    exceeds, provided it beats the initial value. *)
Lemma fold_better_first_max (l1 l2 : list result) (h : result) (b : best) :
  fst b < r_spread h ->
  Forall (fun r => r_spread r < r_spread h) l1 ->
  Forall (fun r => r_spread r <= r_spread h) l2 ->
  fold_left better (l1 ++ h :: l2) b = fields h.
Proof.
  intros Hb H1 H2. rewrite fold_left_app. simpl.
  pose proof (fold_better_below _ _ _ Hb H1) as Hlt.
  set (b1 := fold_left better l1 b) in *.
  assert (E : better b1 h = fields h).
  { unfold better, Rgtb. now rewrite (proj2 (Rltb_true _ _) Hlt). }
  rewrite E. apply fold_better_keep. exact H2.
Qed.

Lemma filter_head_split {A : Type} (f : A -> bool) (l : list A) (h : A)
    (t : list A) :
  filter f l = h :: t ->
  exists l1 l2, l = l1 ++ h :: l2 /\ Forall (fun x => f x = false) l1.
Proof.
  induction l as [|x l IH]; simpl; [discriminate|].
  destruct (f x) eqn:E.
  - intros [= -> <-]. exists [], l. split; [reflexivity | constructor].
  - intros H. destruct (IH H) as (l1 & l2 & -> & Hall).
    exists (x :: l1), l2. split; [reflexivity | now constructor].
Qed.

(** The head of the descending stable sort is the first result whose
    spread no other exceeds. *)
Lemma sort_desc_head (l : list result) (h : result) (t : list result) :
  sort_desc r_spread l = h :: t ->
  exists l1 l2, l = l1 ++ h :: l2 /\
    Forall (fun r => r_spread r < r_spread h) l1 /\
    Forall (fun r => r_spread r <= r_spread h) l2.
Proof.
  intros Hs.
  assert (Hmax : Forall (fun r => r_spread r <= r_spread h) l).
  { pose proof (sort_desc_sorted r_spread l) as Hsorted.
    rewrite Hs in Hsorted. apply StronglySorted_inv in Hsorted as [_ Ht].
    apply Forall_forall. intros r Hin.
    apply (Permutation_in _ (Permutation_sym (sort_desc_perm r_spread l))) in Hin.
    rewrite Hs in Hin. destruct Hin as [<-|Hin]; [lra|].
    rewrite Forall_forall in Ht. exact (Ht r Hin). }
  pose proof (sort_desc_stable r_spread (r_spread h) l) as Hst.
  rewrite Hs in Hst. simpl in Hst.
  rewrite (proj2 (has_key_true r_spread (r_spread h) h) eq_refl) in Hst.
  symmetry in Hst. apply filter_head_split in Hst as (l1 & l2 & -> & Hno).
  exists l1, l2. split; [reflexivity|].
  apply Forall_app in Hmax as [Hm1 Hm2].
  apply Forall_cons_iff in Hm2 as [_ Hm2]. split; [|assumption].
  rewrite Forall_forall in *. intros r Hin.
  specialize (Hm1 r Hin). specialize (Hno r Hin).
  destruct (Rle_lt_or_eq_dec _ _ Hm1) as [Hlt|Heq]; [assumption|].
  apply (has_key_true r_spread) in Heq. congruence.
Qed.

(** * The claims *)

Example evaluate_certain2 :
  evaluate ["60kg"; "61kg"]%string "letterbox" [0; 1]
  = Some (mkResult (1/2) "letterbox" "61kg" 100 [0; 1] [0; 1] [1; 0]%nat).
Proof.
  unfold evaluate, probs_of, already_prob, spread_of, top3_of, argsort, mean.
  reval. do 2 f_equal; rsolve.
Qed.

Example evaluate_single_logit :
  evaluate ["60kg"; "61kg"]%string "short-side" [5]
  = Some (mkResult 0 "short-side" "60kg" 100 [5] [1] [0]%nat).
Proof.
  unfold evaluate, probs_of, already_prob, spread_of, top3_of, argsort, mean,
    softmax.
  reval. replace (5 - 5) with 0 by lra. rewrite exp_0.
  replace (1 / (1 + 0)) with 1 by lra. reval. do 2 f_equal; lra.
Qed.

(** The scores of the spec's end-to-end scenario. *)
Example spread_of_scenario :
  spread_of [1; 2; 3; 10] = Some 6 /\
  spread_of [1/4; 1/4; 1/4; 1/4] = Some 0.
Proof. unfold spread_of, mean; simpl; split; f_equal; rsolve. Qed.

(** C3.  The decisiveness score of an evaluated candidate is the maximum
    of the raw output minus its mean ([sum / length]), on the raw vector
    kept in the result.  The formula is the same in both cases of the
    detection, which only chooses the probability vector: the raw output
    itself, or its softmax. *)
Theorem spread_is_raw_max_minus_mean (labels : list string) (name : string)
    (raw : list R) (r : result) :
  evaluate labels name raw = Some r ->
  r_raw r = raw /\
  (exists m, is_max m raw /\ r_spread r = m - sum raw / INR (length raw)) /\
  (already_prob raw = true -> r_probs r = raw) /\
  (already_prob raw = false -> softmax raw = Some (r_probs r)).
Proof.
  intros H.
  apply evaluate_inv in H as (probs & s & i & lbl & p & Hp & Hs & _ & _ & _ & ->).
  simpl. split; [reflexivity|]. split.
  - unfold spread_of in Hs. destruct (amax raw) as [m|] eqn:E; simpl in Hs;
      [|discriminate].
    injection Hs as <-. exists m. split; [now apply amax_is_max | reflexivity].
  - unfold probs_of in Hp. split; intros E; rewrite E in Hp.
    + now injection Hp.
    + now symmetry.
Qed.

Lemma spread_is_raw_max_minus_mean_witness :
  evaluate ["60kg"; "61kg"]%string "letterbox" [0; 1]
  = Some (mkResult (1/2) "letterbox" "61kg" 100 [0; 1] [0; 1] [1; 0]%nat) /\
  exists m, is_max m [0; 1] /\ 1/2 = m - sum [0; 1] / INR 2.
Proof.
  split; [exact evaluate_certain2|].
  exact (proj1 (proj2 (spread_is_raw_max_minus_mean _ _ _ _ evaluate_certain2))).
Defined.

(** C4.  The probability vector of an evaluated candidate is the raw
    output when [|sum raw - 1| < 0.01], and only then; otherwise it is the
    softmax that subtracts the maximum before exponentiating and divides
    by the sum of the exponentials. *)
Theorem probs_raw_or_stable_softmax (labels : list string) (name : string)
    (raw : list R) (r : result) :
  evaluate labels name raw = Some r ->
  (r_probs r = raw <-> Rabs (sum raw - 1) < 1 / 100) /\
  (~ Rabs (sum raw - 1) < 1 / 100 ->
   exists m, is_max m raw /\ r_probs r = stable_softmax_spec m raw).
Proof.
  intros H. pose proof (evaluate_nonempty _ _ _ _ H) as Hne.
  apply evaluate_inv in H as (probs & s & i & lbl & p & Hp & _ & _ & _ & _ & ->).
  simpl. unfold probs_of, already_prob in Hp.
  destruct (Rltb (Rabs (sum raw - 1)) (1 / 100)) eqn:E.
  - apply Rltb_true in E. injection Hp as <-. split; [tauto | contradiction].
  - apply Rltb_false in E.
    destruct (softmax_is_spec _ _ Hp) as (m & Hm & ->). split.
    + split; [|lra]. intros Heq.
      pose proof (sum_stable_softmax m raw Hne) as Hsum. rewrite Heq in Hsum.
      rewrite Hsum in E. replace (1 - 1) with 0 in E by lra.
      rewrite Rabs_R0 in E. lra.
    + intros _. now exists m.
Qed.

Lemma probs_raw_or_stable_softmax_witness :
  evaluate ["60kg"; "61kg"]%string "short-side" [5]
  = Some (mkResult 0 "short-side" "60kg" 100 [5] [1] [0]%nat) /\
  ([1] = [5] <-> Rabs (sum [5] - 1) < 1 / 100) /\
  (~ Rabs (sum [5] - 1) < 1 / 100 ->
   exists m, is_max m [5] /\ [1] = stable_softmax_spec m [5]).
Proof.
  split; [exact evaluate_single_logit|].
  exact (probs_raw_or_stable_softmax _ _ _ _ evaluate_single_logit).
Defined.

(** C7.  The classification of the best score is a three-way partition:
    below 2.0 Unreliable, from 2.0 up to but not including 5.0 Mediocre,
    5.0 and above Acceptable; each score gets one class, and the
    recommendation carries exactly one verdict line, that of the best
    score. *)
Theorem classify_three_way (s : R) (st : loop_state) :
  (classify s = Unreliable <-> s < 2) /\
  (classify s = Mediocre <-> 2 <= s < 5) /\
  (classify s = Acceptable <-> 5 <= s) /\
  filter (fun l => match l with PVerdict _ _ _ => true | _ => false end)
    (recommendation st)
  = [PVerdict (classify (best_spread st)) (best_name st) (best_spread st)].
Proof.
  unfold classify.
  destruct (Rltb s 2) eqn:E2; [apply Rltb_true in E2 | apply Rltb_false in E2];
    [|destruct (Rgeb s 5) eqn:E5;
       [apply Rgeb_true in E5 | apply Rgeb_false in E5]];
    (repeat split; intros; try discriminate; try lra; try reflexivity).
Qed.

(** ** Labels and indices *)

Lemma resolve_label_value (labels : list string) (idx : nat) :
  resolve_label labels idx
  = Some (if (idx <? length labels)%nat then nth idx labels ""%string
          else ("idx_" ++ str_of_nat idx)%string).
Proof.
  unfold resolve_label. destruct (idx <? length labels)%nat eqn:E; [|reflexivity].
  apply Nat.ltb_lt in E. now apply nth_error_nth'.
Qed.

Lemma evaluate_top3_in_range (labels : list string) (name : string)
    (raw : list R) (r : result) :
  evaluate labels name raw = Some r -> top3_in_range r.
Proof.
  intros H.
  apply evaluate_inv in H as (probs & s & i & lbl & p & _ & _ & _ & _ & _ & ->).
  apply Forall_forall. simpl. apply top3_of_in_range.
Qed.

Lemma print_top3_total (labels : list string) (r : result) (t : list nat)
    (i : nat) :
  Forall (fun j => (j < length (r_probs r))%nat) t ->
  exists lines, print_top3 labels i r t = Some lines /\
                length lines = length t.
Proof.
  revert i; induction t as [|idx rest IH]; intros i Hall; simpl; [eauto|].
  inversion Hall as [|? ? Hidx Hrest]; subst.
  rewrite resolve_label_value; simpl.
  destruct (nth_error (r_probs r) idx) as [p|] eqn:En; simpl.
  - destruct (IH (S i) Hrest) as (more & -> & Hlen). simpl.
    eexists; split; [reflexivity|]. simpl. now rewrite Hlen.
  - apply nth_error_None in En. lia.
Qed.

Lemma print_ranking_total (labels : list string) (rs : list result)
    (rank : nat) :
  Forall top3_in_range rs ->
  exists lines, print_ranking labels rank rs = Some lines.
Proof.
  revert rank; induction rs as [|r rest IH]; intros rank Hall; simpl; [eauto|].
  inversion Hall as [|? ? Hr Hrest]; subst.
  destruct (print_top3_total labels r (r_top3 r) 0 Hr) as (tops & -> & _).
  destruct (IH (S rank) Hrest) as (more & ->). simpl. eauto.
Qed.

(** C8.  Label resolution never indexes outside the label list: an index
    at or past its length gives the synthetic ["idx_<i>"], a smaller one
    the label at that index.  For an evaluated candidate the top-1 index
    and every top-3 entry lie below the length of the output vector, and
    printing the top three raises nothing; with 95 outputs and 95 labels
    every index is below 95 and is resolved to a label of the list. *)
Theorem label_resolution_in_bounds (labels : list string) (name : string)
    (raw : list R) (r : result) :
  evaluate labels name raw = Some r ->
  (forall idx,
     resolve_label labels idx
     = Some (if (idx <? length labels)%nat then nth idx labels ""%string
             else ("idx_" ++ str_of_nat idx)%string)) /\
  (exists top_idx,
     argmax (r_probs r) = Some top_idx /\ (top_idx < length raw)%nat /\
     resolve_label labels top_idx = Some (r_top_lbl r)) /\
  Forall (fun i => (i < length raw)%nat) (r_top3 r) /\
  (exists lines, print_top3 labels 0 r (r_top3 r) = Some lines /\
                 length lines = length (r_top3 r)) /\
  (length raw = 95%nat -> length labels = 95%nat ->
   Forall (fun i => (i < 95)%nat /\ resolve_label labels i = nth_error labels i)
     (r_top3 r)).
Proof.
  intros H. pose proof (evaluate_top3_in_range _ _ _ _ H) as Hin.
  assert (Hrange : Forall (fun i => (i < length raw)%nat) (r_top3 r)).
  { apply evaluate_inv in H
      as (probs & s & i & lbl & p & Hp & _ & _ & _ & _ & ->).
    unfold top3_in_range in Hin. simpl in *.
    now rewrite (probs_of_length _ _ Hp) in Hin. }
  split; [apply resolve_label_value|]. split; [|split; [exact Hrange|split]].
  - apply evaluate_inv in H
      as (probs & s & i & lbl & p & Hp & _ & Hi & Hl & _ & ->).
    simpl. exists i. repeat split; try assumption.
    apply argmax_range in Hi. now rewrite (probs_of_length _ _ Hp) in Hi.
  - now apply print_top3_total.
  - intros Hraw Hlab. rewrite Hraw in Hrange.
    eapply Forall_impl; [|exact Hrange]. simpl. intros i Hi.
    split; [assumption|]. unfold resolve_label.
    now rewrite (proj2 (Nat.ltb_lt i (length labels))) by lia.
Qed.

Lemma label_resolution_in_bounds_witness :
  evaluate ["60kg"; "61kg"]%string "letterbox" [0; 1]
  = Some (mkResult (1/2) "letterbox" "61kg" 100 [0; 1] [0; 1] [1; 0]%nat) /\
  Forall (fun i => (i < 2)%nat) [1; 0]%nat.
Proof.
  split; [exact evaluate_certain2|].
  exact (proj1 (proj2 (proj2
    (label_resolution_in_bounds _ _ _ _ evaluate_certain2)))).
Defined.

(** ** The top three *)

Lemma argsort_sorts_ascending (a : list R) : sorts_ascending a (argsort a).
Proof.
  split; [apply argsort_perm|].
  exact (sort_asc_sorted (fun i => nth i a 0) (seq 0 (length a))).
Qed.

Lemma rev_last3 {A : Type} (l : list A) : rev (last3 l) = firstn 3 (rev l).
Proof. unfold last3. symmetry. apply firstn_rev. Qed.

(** The list built at line 275 from any order the sort may return. *)
Lemma top3_from_order (p : list R) (order : list nat) :
  sorts_ascending p order ->
  length (rev (last3 order)) = Nat.min 3 (length p) /\
  NoDup (rev (last3 order)) /\
  (forall i, In i (rev (last3 order)) -> (i < length p)%nat) /\
  StronglySorted (fun i j => nth j p 0 <= nth i p 0) (rev (last3 order)) /\
  (forall i j, In i (rev (last3 order)) -> (j < length p)%nat ->
               ~ In j (rev (last3 order)) -> nth j p 0 <= nth i p 0).
Proof.
  intros [Hperm Hsorted]. rewrite rev_last3.
  pose proof (StronglySorted_rev _ _ Hsorted) as Hdesc. simpl in Hdesc.
  assert (Hlen : length (rev order) = length p).
  { now rewrite length_rev, (Permutation_length Hperm), length_seq. }
  assert (Hin : forall i, In i (rev order) <-> (i < length p)%nat).
  { intros i. rewrite <- in_rev. split.
    - intros H. apply (Permutation_in _ Hperm), in_seq in H. lia.
    - intros H. apply (Permutation_in _ (Permutation_sym Hperm)), in_seq. lia. }
  assert (Hnd : NoDup (rev order)).
  { apply (Permutation_NoDup (Permutation_rev order)).
    apply (Permutation_NoDup (Permutation_sym Hperm)), seq_NoDup. }
  set (d := rev order) in *.
  rewrite <- (firstn_skipn 3 d) in Hdesc, Hnd.
  apply StronglySorted_app_inv in Hdesc as (H1 & _ & H12).
  assert (Hsub : forall i, In i (firstn 3 d) -> In i d).
  { intros i Hi. rewrite <- (firstn_skipn 3 d). apply in_or_app. now left. }
  split; [rewrite length_firstn, Hlen; reflexivity|].
  split; [exact (NoDup_app_remove_r _ _ Hnd)|].
  split; [intros i Hi; now apply Hin, Hsub|].
  split; [exact H1|].
  intros i j Hi Hj Hnj. apply H12; [assumption|].
  apply Hin in Hj. rewrite <- (firstn_skipn 3 d) in Hj.
  apply in_app_or in Hj as [Hj|Hj]; [contradiction | assumption].
Qed.

(** C2, as the spec words it, is not what the code guarantees.  The
    default kind of [np.argsort] is free in the order of equal values; for
    four equal probabilities the index order 0, 1, 2, 3 is one it may
    return, and line 275 then gives 3, 2, 1: the higher index first.  The
    reverse order is another it may return, and gives 0, 1, 2. *)
Lemma top3_tie_order_not_fixed :
  sorts_ascending [1/4; 1/4; 1/4; 1/4] [0; 1; 2; 3]%nat /\
  rev (last3 [0; 1; 2; 3]%nat) = [3; 2; 1]%nat /\
  ~ ties_lower_index_first [1/4; 1/4; 1/4; 1/4] [3; 2; 1]%nat /\
  sorts_ascending [1/4; 1/4; 1/4; 1/4] [3; 2; 1; 0]%nat /\
  rev (last3 [3; 2; 1; 0]%nat) = [0; 1; 2]%nat.
Proof.
  split; [|split; [reflexivity|split; [|split; [|reflexivity]]]].
  - split; [reflexivity|]. repeat constructor; simpl; lra.
  - intros H. specialize (H 0%nat 1%nat 3%nat 2%nat eq_refl eq_refl).
    simpl in H. specialize (H (Nat.lt_0_succ 0) eq_refl). lia.
  - split; [|repeat constructor; simpl; lra].
    apply Permutation_rev.
Qed.

(** C2, amended.  Whatever order the sort returns among equal values,
    the top three of an evaluated candidate are distinct indices of the
    probability vector, three of them (all, when the vector is shorter),
    in descending order of probability, and every index left out has a
    probability no greater than each of them.  The order of equal
    probabilities is not fixed.  The top three kept in the result are
    built in this way from one such order. *)
Theorem top3_descending_any_tie_order (labels : list string)
    (name : string) (raw : list R) (r : result) (order : list nat) :
  evaluate labels name raw = Some r ->
  sorts_ascending (r_probs r) order ->
  length (rev (last3 order)) = Nat.min 3 (length (r_probs r)) /\
  NoDup (rev (last3 order)) /\
  (forall i, In i (rev (last3 order)) -> (i < length (r_probs r))%nat) /\
  StronglySorted (fun i j => nth j (r_probs r) 0 <= nth i (r_probs r) 0)
    (rev (last3 order)) /\
  (forall i j, In i (rev (last3 order)) -> (j < length (r_probs r))%nat ->
               ~ In j (rev (last3 order)) ->
               nth j (r_probs r) 0 <= nth i (r_probs r) 0) /\
  sorts_ascending (r_probs r) (argsort (r_probs r)) /\
  r_top3 r = rev (last3 (argsort (r_probs r))).
Proof.
  intros H Horder.
  destruct (top3_from_order _ _ Horder) as (H1 & H2 & H3 & H4 & H5).
  repeat (split; [assumption|]).
  split; [apply argsort_sorts_ascending|].
  apply evaluate_inv in H as (probs & s & i & lbl & p & _ & _ & _ & _ & _ & ->).
  reflexivity.
Qed.

Lemma order_10_sorts_01 : sorts_ascending [0; 1] [0; 1]%nat.
Proof. split; [reflexivity|]. repeat constructor; simpl; lra. Qed.

Lemma top3_descending_any_tie_order_witness :
  evaluate ["60kg"; "61kg"]%string "letterbox" [0; 1]
  = Some (mkResult (1/2) "letterbox" "61kg" 100 [0; 1] [0; 1] [1; 0]%nat) /\
  sorts_ascending [0; 1] [0; 1]%nat /\
  StronglySorted (fun i j => nth j [0; 1] 0 <= nth i [0; 1] 0)
    (rev (last3 [0; 1]%nat)).
Proof.
  split; [exact evaluate_certain2|]. split; [exact order_10_sorts_01|].
  exact (proj1 (proj2 (proj2 (proj2
    (top3_descending_any_tie_order _ _ _ _ _ evaluate_certain2
       order_10_sorts_01))))).
Defined.

(** ** Runs *)

Section RunFacts.
Variable tensor : Type.
Variable astype : tensor -> tensor.
Variable run_inference : tensor -> string + list R.
Variable labels : list string.

Let loop' := loop tensor astype run_inference labels.
Let main' := main tensor astype run_inference labels.
Let succeeded' := succeeded tensor astype run_inference.
Let failed' := failed tensor astype run_inference.

Lemma loop_init (cs : list (string * tensor)) (st : loop_state) :
  loop' init_state cs = Some st ->
  exists rs, eval_all labels (succeeded' cs) = Some rs /\
             st = state_after init_state (failed' cs) rs.
Proof.
  subst loop' succeeded' failed'. rewrite loop_eq.
  destruct (eval_all labels _) as [rs|]; simpl; [|discriminate].
  intros [= <-]. now exists rs.
Qed.

Lemma loop_returns (cs : list (string * tensor)) :
  (forall name raw, In (name, raw) (succeeded' cs) -> raw <> []) ->
  exists st, loop' init_state cs = Some st.
Proof.
  subst loop' succeeded'. intros Hne. rewrite loop_eq.
  destruct (eval_all_some labels _ Hne) as [rs ->]. simpl. eauto.
Qed.

Lemma split_length (cs : list (string * tensor)) :
  (length (succeeded' cs) + length (failed' cs) = length cs)%nat.
Proof.
  subst succeeded' failed'.
  induction cs as [|[name norm] rest IH]; simpl; [reflexivity|].
  destruct (run_inference (astype norm)); simpl; lia.
Qed.

Lemma loop_results_in_range (cs : list (string * tensor))
    (st : loop_state) :
  loop' init_state cs = Some st -> Forall top3_in_range (ranked st).
Proof.
  intros H. apply loop_init in H as (rs & Hrs & ->).
  apply Forall_forall. intros r Hin. unfold ranked in Hin.
  apply (Permutation_in _ (sort_desc_perm r_spread _)) in Hin.
  simpl in Hin.
  destruct (eval_all_in _ _ _ _ Hrs Hin) as (name & raw & _ & He).
  now apply evaluate_top3_in_range in He.
Qed.

Lemma main_returns (cs : list (string * tensor)) :
  (forall name raw, In (name, raw) (succeeded' cs) -> raw <> []) ->
  exists st lines,
    loop' init_state cs = Some st /\
    print_ranking labels 0 (ranked st) = Some lines /\
    main' cs
    = Some (PSection "PREPROCESSING COMPARISON"
              :: printed st ++ lines ++ recommendation st).
Proof.
  intros Hne. destruct (loop_returns cs Hne) as [st Hst].
  destruct (print_ranking_total labels (ranked st) 0
              (loop_results_in_range cs st Hst)) as [lines Hl].
  exists st, lines. split; [assumption|]. split; [assumption|].
  subst main' loop'. unfold main. rewrite Hst. simpl. now rewrite Hl.
Qed.
End RunFacts.

Example demo_loop :
  loop nat (fun t => t) demo_infer demo_labels init_state demo_candidates
  = Some demo_state.
Proof.
  unfold demo_candidates, demo_labels, init_state, demo_state, demo_center,
    demo_letterbox, demo_short.
  unfold loop, step, demo_infer, evaluate, probs_of, already_prob, spread_of,
    top3_of, argsort, mean, Rgtb.
  reval. req.
Qed.

Example demo_ranked :
  ranked demo_state = [demo_letterbox; demo_short; demo_center].
Proof.
  unfold ranked, sort_desc, demo_state, demo_center, demo_letterbox,
    demo_short.
  reval. reflexivity.
Qed.

Lemma demo_succeeded_nonempty (name : string) (raw : list R) :
  In (name, raw) (succeeded nat (fun t => t) demo_infer demo_candidates) ->
  raw <> [].
Proof.
  simpl. intros [H|[H|[H|[]]]]; injection H as _ <-; discriminate.
Qed.

(** C9.  A failing inference call is isolated.  When every returned
    output vector is non-empty the loop and the whole report run to the
    end; each failure is logged, in order, and the log is part of the
    output; the results are the full evaluations of exactly the candidates
    whose call returned, in generation order, and together with the
    failures they account for every candidate; the ranked list is a
    permutation of these results, so each ranked result is the complete
    evaluation of a candidate whose call returned. *)
Theorem inference_failure_isolated (tensor : Type)
    (astype : tensor -> tensor) (run_inference : tensor -> string + list R)
    (labels : list string) (cs : list (string * tensor)) :
  (forall name raw,
     In (name, raw) (succeeded tensor astype run_inference cs) -> raw <> []) ->
  exists st out,
    loop tensor astype run_inference labels init_state cs = Some st /\
    main tensor astype run_inference labels cs = Some out /\
    printed st = map perr (failed tensor astype run_inference cs) /\
    incl (printed st) out /\
    map Some (results st)
    = map (eval_pair labels) (succeeded tensor astype run_inference cs) /\
    (length (results st)
     + length (failed tensor astype run_inference cs) = length cs)%nat /\
    Permutation (ranked st) (results st) /\
    (forall r, In r (ranked st) ->
       exists name raw,
         In (name, raw) (succeeded tensor astype run_inference cs) /\
         evaluate labels name raw = Some r).
Proof.
  intros Hne.
  destruct (main_returns tensor astype run_inference labels cs Hne)
    as (st & lines & Hst & _ & Hmain).
  exists st. eexists. split; [exact Hst|]. split; [exact Hmain|].
  destruct (loop_init _ _ _ _ _ _ Hst) as (rs & Hrs & ->).
  unfold ranked. simpl.
  split; [reflexivity|]. split.
  { intros l Hl. right. apply in_or_app. now left. }
  split; [now apply eval_all_map|]. split.
  { rewrite <- (split_length tensor astype run_inference cs).
    f_equal. apply eval_all_map in Hrs.
    apply (f_equal (@length _)) in Hrs. now rewrite !length_map in Hrs. }
  split; [apply sort_desc_perm|].
  intros r Hin. apply (Permutation_in _ (sort_desc_perm r_spread rs)) in Hin.
  exact (eval_all_in _ _ _ _ Hrs Hin).
Qed.

Lemma inference_failure_isolated_witness :
  (forall name raw,
     In (name, raw) (succeeded nat (fun t => t) demo_infer demo_candidates) ->
     raw <> []) /\
  exists st out,
    loop nat (fun t => t) demo_infer demo_labels init_state demo_candidates
    = Some st /\
    main nat (fun t => t) demo_infer demo_labels demo_candidates = Some out /\
    printed st
    = map perr (failed nat (fun t => t) demo_infer demo_candidates) /\
    incl (printed st) out /\
    map Some (results st)
    = map (eval_pair demo_labels)
        (succeeded nat (fun t => t) demo_infer demo_candidates) /\
    (length (results st)
     + length (failed nat (fun t => t) demo_infer demo_candidates)
     = length demo_candidates)%nat /\
    Permutation (ranked st) (results st) /\
    (forall r, In r (ranked st) ->
       exists name raw,
         In (name, raw)
           (succeeded nat (fun t => t) demo_infer demo_candidates) /\
         evaluate demo_labels name raw = Some r).
Proof.
  split; [exact demo_succeeded_nonempty|].
  exact (inference_failure_isolated nat (fun t => t) demo_infer demo_labels
           demo_candidates demo_succeeded_nonempty).
Defined.

(** C5.  After the loop the results are the evaluations of the candidates
    whose call returned, in generation order.  The ranked list is a
    permutation of them, in descending order of spread, and results of
    equal spread keep their generation order.  The list is a function of
    the inputs: a second run from the same inputs ranks the same list. *)
Theorem ranking_sorted_and_stable (tensor : Type)
    (astype : tensor -> tensor) (run_inference : tensor -> string + list R)
    (labels : list string) (cs : list (string * tensor)) (st : loop_state) :
  loop tensor astype run_inference labels init_state cs = Some st ->
  map Some (results st)
  = map (eval_pair labels) (succeeded tensor astype run_inference cs) /\
  Permutation (ranked st) (results st) /\
  StronglySorted (fun a b => r_spread b <= r_spread a) (ranked st) /\
  (forall s, filter (has_key r_spread s) (ranked st)
             = filter (has_key r_spread s) (results st)) /\
  (forall st', loop tensor astype run_inference labels init_state cs = Some st' ->
               ranked st' = ranked st).
Proof.
  intros Hst. split.
  - destruct (loop_init _ _ _ _ _ _ Hst) as (rs & Hrs & ->). simpl.
    now apply eval_all_map.
  - unfold ranked. split; [apply sort_desc_perm|].
    split; [apply (sort_desc_sorted r_spread)|].
    split; [intros s; apply sort_desc_stable|].
    intros st' Hst'. congruence.
Qed.

Lemma ranking_sorted_and_stable_witness :
  loop nat (fun t => t) demo_infer demo_labels init_state demo_candidates
  = Some demo_state /\
  StronglySorted (fun a b => r_spread b <= r_spread a) (ranked demo_state).
Proof.
  split; [exact demo_loop|].
  exact (proj1 (proj2 (proj2
    (ranking_sorted_and_stable nat (fun t => t) demo_infer demo_labels
       demo_candidates demo_state demo_loop)))).
Defined.

(** C6.  When at least one candidate's call returned, the ranked list has
    a head, and the best candidate kept by the loop (replaced only on a
    strictly greater spread) is that head: same spread, name, label and
    confidence. *)
Theorem best_is_head_of_ranked (tensor : Type)
    (astype : tensor -> tensor) (run_inference : tensor -> string + list R)
    (labels : list string) (cs : list (string * tensor)) (st : loop_state) :
  loop tensor astype run_inference labels init_state cs = Some st ->
  succeeded tensor astype run_inference cs <> [] ->
  exists h t,
    ranked st = h :: t /\
    best_spread st = r_spread h /\ best_name st = r_name h /\
    best_label st = r_top_lbl h /\ best_conf st = r_top_conf h.
Proof.
  intros Hst Hne.
  destruct (loop_init _ _ _ _ _ _ Hst) as (rs & Hrs & ->).
  unfold ranked. simpl.
  destruct (sort_desc r_spread rs) as [|h t] eqn:Es.
  - exfalso. apply Hne.
    pose proof (Permutation_length (sort_desc_perm r_spread rs)) as Hlen.
    rewrite Es in Hlen. apply eval_all_map in Hrs.
    apply (f_equal (@length _)) in Hrs. rewrite !length_map in Hrs.
    apply length_zero_iff_nil. simpl in Hlen. lia.
  - exists h, t. split; [reflexivity|].
    destruct (sort_desc_head _ _ _ Es) as (l1 & l2 & -> & H1 & H2).
    assert (Hh : -999 < r_spread h).
    { pose proof (eval_all_spread_nonneg _ _ _ Hrs) as Hall.
      apply Forall_app in Hall as [_ Hall].
      apply Forall_cons_iff in Hall as [Hh _]. lra. }
    unfold best_of, init_state. simpl.
    rewrite (fold_better_first_max l1 l2 h (-999, (""%string, ""%string, 0)))
      by assumption.
    simpl. auto.
Qed.

Lemma demo_succeeded_some :
  succeeded nat (fun t => t) demo_infer demo_candidates <> [].
Proof. simpl. discriminate. Qed.

Lemma best_is_head_of_ranked_witness :
  loop nat (fun t => t) demo_infer demo_labels init_state demo_candidates
  = Some demo_state /\
  succeeded nat (fun t => t) demo_infer demo_candidates <> [] /\
  exists h t,
    ranked demo_state = h :: t /\
    best_spread demo_state = r_spread h /\ best_name demo_state = r_name h /\
    best_label demo_state = r_top_lbl h /\ best_conf demo_state = r_top_conf h.
Proof.
  split; [exact demo_loop|]. split; [exact demo_succeeded_some|].
  exact (best_is_head_of_ranked nat (fun t => t) demo_infer demo_labels
           demo_candidates demo_state demo_loop demo_succeeded_some).
Defined.

(** C1, as the spec words it, fails: with every call failing the output
    still carries a recommendation, with an empty name and the initial
    spread, classified Unreliable, and nothing else marks the run. *)
Lemma all_fail_emits_recommendation :
  succeeded nat (fun t => t) broken_infer
    [("stretch", 0); ("letterbox", 1)]%string%nat = [] /\
  main nat (fun t => t) broken_infer demo_labels
    [("stretch", 0); ("letterbox", 1)]%string%nat
  = Some [ PSection "PREPROCESSING COMPARISON";
           PError "stretch" "input shape mismatch";
           PError "letterbox" "input shape mismatch";
           PSection "RECOMMENDATION";
           PBest "" "" 0 (-999);
           PVerdict Unreliable "" (-999);
           PUpdate ] /\
  emits_recommendation
    [ PSection "PREPROCESSING COMPARISON";
      PError "stretch" "input shape mismatch";
      PError "letterbox" "input shape mismatch";
      PSection "RECOMMENDATION";
      PBest "" "" 0 (-999);
      PVerdict Unreliable "" (-999);
      PUpdate ].
Proof.
  split; [reflexivity|]. split.
  - unfold main, recommendation, classify. reval. reflexivity.
  - exists ""%string, ""%string, 0, (-999). simpl. tauto.
Qed.

(** C1, amended.  When every call fails the run does not raise: it logs
    each failure, ranks nothing, and emits the recommendation section with
    the initial values (empty name and label, confidence 0, spread -999),
    classified Unreliable. *)
Theorem all_fail_reports_initial_best (tensor : Type)
    (astype : tensor -> tensor) (run_inference : tensor -> string + list R)
    (labels : list string) (cs : list (string * tensor)) :
  succeeded tensor astype run_inference cs = [] ->
  main tensor astype run_inference labels cs
  = Some (PSection "PREPROCESSING COMPARISON"
            :: map perr (failed tensor astype run_inference cs)
            ++ [ PSection "RECOMMENDATION";
                 PBest "" "" 0 (-999);
                 PVerdict Unreliable "" (-999);
                 PUpdate ]).
Proof.
  intros Hall. unfold main. rewrite loop_eq, Hall. simpl.
  unfold recommendation, classify. reval. reflexivity.
Qed.

Lemma all_fail_reports_initial_best_witness :
  succeeded nat (fun t => t) broken_infer demo_candidates = [] /\
  main nat (fun t => t) broken_infer demo_labels demo_candidates
  = Some (PSection "PREPROCESSING COMPARISON"
            :: map perr (failed nat (fun t => t) broken_infer demo_candidates)
            ++ [ PSection "RECOMMENDATION";
                 PBest "" "" 0 (-999);
                 PVerdict Unreliable "" (-999);
                 PUpdate ]).
Proof.
  split; [reflexivity|].
  exact (all_fail_reports_initial_best nat (fun t => t) broken_infer
           demo_labels demo_candidates eq_refl).
Defined.

(** * Further properties of the code *)

(** ** [softmax] (lines 73-75) *)

Lemma softmax_some (raw : list R) :
  raw <> [] -> exists m, is_max m raw /\
                         softmax raw = Some (stable_softmax_spec m raw).
Proof.
  intros Hne. unfold softmax. destruct (amax raw) as [m|] eqn:E.
  - exists m. split; [now apply amax_is_max|]. simpl.
    unfold stable_softmax_spec. now rewrite map_map.
  - destruct raw; [congruence | discriminate].
Qed.

Lemma exp_le_1 (x : R) : x <= 0 -> exp x <= 1.
Proof.
  intros [Hlt| ->]; [|rewrite exp_0; lra].
  left. rewrite <- exp_0. now apply exp_increasing.
Qed.

Lemma sum_ge_elem (l : list R) (x : R) :
  Forall (fun y => 0 <= y) l -> In x l -> x <= sum l.
Proof.
  induction 1 as [|y t Hy Ht IH]; simpl; [contradiction|].
  assert (0 <= sum t).
  { clear IH. induction Ht; simpl; lra. }
  intros [ -> |Hin]; [lra|]. specialize (IH Hin). lra.
Qed.

Lemma softmax_entries (raw p : list R) :
  softmax raw = Some p -> Forall (fun x => 0 < x <= 1) p.
Proof.
  intros H.
  assert (Hne : raw <> []).
  { intros ->. discriminate. }
  destruct (softmax_is_spec _ _ H) as (m & Hm & ->).
  unfold stable_softmax_spec.
  pose proof (sum_exp_pos (fun x => x - m) raw Hne) as Hpos.
  set (s := sum (map (fun y => exp (y - m)) raw)) in *.
  apply Forall_forall. intros y Hy. apply in_map_iff in Hy as (x & <- & Hx).
  pose proof (exp_pos (x - m)) as He.
  assert (Hle : exp (x - m) <= s).
  { apply sum_ge_elem.
    - apply Forall_forall. intros z Hz. apply in_map_iff in Hz as (w & <- & _).
      left. apply exp_pos.
    - apply in_map_iff. now exists x. }
  split.
  - now apply Rdiv_lt_0_compat.
  - apply Rmult_le_reg_r with s; [assumption|].
    unfold Rdiv. rewrite Rmult_assoc, Rinv_l by lra. lra.
Qed.

(** The output of [softmax] is a probability distribution over the same
    indices: as long as the input, every entry between 0 and 1, and the
    entries sum to 1. *)
Theorem softmax_is_distribution (raw p : list R) :
  softmax raw = Some p ->
  length p = length raw /\
  Forall (fun x => 0 <= x <= 1) p /\
  sum p = 1.
Proof.
  intros H. split; [now apply softmax_length|].
  split.
  { eapply Forall_impl; [|exact (softmax_entries raw p H)].
    simpl. intros x Hx. lra. }
  assert (Hne : raw <> []).
  { intros ->. discriminate. }
  destruct (softmax_is_spec _ _ H) as (m & _ & ->).
  now apply sum_stable_softmax.
Qed.

Lemma softmax_is_distribution_witness :
  exists p, softmax [1; 3; 2] = Some p /\ sum p = 1.
Proof.
  refine (ex_intro _ _ (conj eq_refl _)).
  exact (proj2 (proj2 (softmax_is_distribution [1; 3; 2] _ eq_refl))).
Defined.

Lemma Rmax_shift (c a b : R) : Rmax (a + c) (b + c) = Rmax a b + c.
Proof.
  unfold Rmax. destruct (Rle_dec (a + c) (b + c)), (Rle_dec a b); lra.
Qed.

Lemma max_of_shift (c x : R) (t : list R) :
  max_of (x + c) (map (fun y => y + c) t) = max_of x t + c.
Proof.
  revert x; induction t as [|y t IH]; intros x; simpl; [reflexivity|].
  rewrite IH. apply Rmax_shift.
Qed.

(** Adding one constant to every logit does not change the output of
    [softmax]; an empty input raises either way. *)
Theorem softmax_shift_invariant (c : R) (raw : list R) :
  softmax (map (fun x => x + c) raw) = softmax raw.
Proof.
  unfold softmax.
  assert (Ha : amax (map (fun y => y + c) raw)
               = option_map (fun m => m + c) (amax raw)).
  { destruct raw as [|x t]; [reflexivity|]. simpl. now rewrite max_of_shift. }
  rewrite Ha. destruct (amax raw) as [m|]; [|reflexivity].
  cbn [option_map bind].
  assert (E : map (fun y => exp (y - (m + c))) (map (fun y => y + c) raw)
              = map (fun y => exp (y - m)) raw).
  { rewrite map_map. apply map_ext. intros y. f_equal. lra. }
  now rewrite E.
Qed.

(** Subtracting the maximum changes nothing in the value: on a non-empty
    input [softmax] returns [exp x / sum (exp raw)] at every index. *)
Theorem softmax_is_textbook (raw p : list R) :
  softmax raw = Some p -> p = plain_softmax raw.
Proof.
  intros H. destruct (softmax_is_spec _ _ H) as (m & _ & ->).
  apply stable_softmax_plain.
Qed.

Lemma softmax_is_textbook_witness :
  exists p, softmax [1; 3; 2] = Some p /\ p = plain_softmax [1; 3; 2].
Proof.
  refine (ex_intro _ _ (conj eq_refl _)).
  exact (softmax_is_textbook [1; 3; 2] _ eq_refl).
Defined.

(** ** [softmax] and the order of the logits *)

Lemma softmax_as_map (raw p : list R) :
  softmax raw = Some p ->
  exists g, (forall a b, a < b -> g a < g b) /\ p = map g raw.
Proof.
  intros H. assert (Hne : raw <> []) by (intros ->; discriminate).
  destruct (softmax_is_spec _ _ H) as (m & _ & ->).
  pose proof (sum_exp_pos (fun x => x - m) raw Hne) as Hpos.
  exists (fun x => exp (x - m) / sum (map (fun y => exp (y - m)) raw)).
  split; [|reflexivity].
  intros a b Hab. apply Rmult_lt_compat_r.
  - now apply Rinv_0_lt_compat.
  - apply exp_increasing. lra.
Qed.

Lemma argmax_from_spec (l pre : list R) (bi : nat) (bv : R) :
  (bi < length pre)%nat -> nth bi pre 0 = bv ->
  (forall j, (j < length pre)%nat -> nth j pre 0 <= bv) ->
  (forall j, (j < bi)%nat -> nth j pre 0 < bv) ->
  let k := argmax_from (length pre) bi bv l in
  (k < length (pre ++ l))%nat /\
  (forall j, (j < length (pre ++ l))%nat ->
             nth j (pre ++ l) 0 <= nth k (pre ++ l) 0) /\
  (forall j, (j < k)%nat -> nth j (pre ++ l) 0 < nth k (pre ++ l) 0).
Proof.
  revert pre bi bv; induction l as [|y t IH]; intros pre bi bv Hbi Hbv Hle Hlt.
  - simpl. rewrite app_nil_r. rewrite Hbv. auto.
  - simpl argmax_from.
    replace (pre ++ y :: t) with ((pre ++ [y]) ++ t)
      by (rewrite <- app_assoc; reflexivity).
    replace (S (length pre)) with (length (pre ++ [y]))
      by (rewrite length_app; simpl; lia).
    assert (Hy : nth (length pre) (pre ++ [y]) 0 = y) by apply nth_middle.
    destruct (Rltb bv y) eqn:E; [apply Rltb_true in E | apply Rltb_false in E];
      apply IH.
    + rewrite length_app; simpl; lia.
    + exact Hy.
    + intros j Hj. rewrite length_app in Hj; simpl in Hj.
      destruct (Nat.eq_dec j (length pre)) as [->|Hne]; [rewrite Hy; lra|].
      rewrite app_nth1 by lia. specialize (Hle j ltac:(lia)). lra.
    + intros j Hj. rewrite app_nth1 by lia. specialize (Hle j Hj). lra.
    + rewrite length_app; simpl; lia.
    + rewrite app_nth1 by lia. exact Hbv.
    + intros j Hj. rewrite length_app in Hj; simpl in Hj.
      destruct (Nat.eq_dec j (length pre)) as [->|Hne]; [rewrite Hy; lra|].
      rewrite app_nth1 by lia. apply Hle. lia.
    + intros j Hj. rewrite app_nth1 by lia. now apply Hlt.
Qed.

(** [argmax] returns the first index that holds the maximum. *)
Lemma argmax_first (l : list R) (k : nat) :
  argmax l = Some k ->
  (k < length l)%nat /\
  amax l = Some (nth k l 0) /\
  (forall j, (j < k)%nat -> nth j l 0 < nth k l 0).
Proof.
  destruct l as [|x t]; [discriminate|].
  unfold argmax. intros [= <-].
  assert (H : let k := argmax_from 1 0 x t in
              (k < length (x :: t))%nat /\
              (forall j, (j < length (x :: t))%nat ->
                         nth j (x :: t) 0 <= nth k (x :: t) 0) /\
              (forall j, (j < k)%nat -> nth j (x :: t) 0 < nth k (x :: t) 0)).
  { apply (argmax_from_spec t [x] 0 x).
    - simpl; lia.
    - reflexivity.
    - intros j Hj. simpl in Hj. replace j with 0%nat by lia. simpl. lra.
    - intros j Hj. lia. }
  cbv zeta in H. destruct H as (Hk & Hle & Hlt).
  split; [exact Hk|]. split; [|exact Hlt].
  unfold amax. f_equal.
  apply (is_max_unique _ _ (x :: t)); [apply max_of_is_max|].
  split.
  - apply nth_In. exact Hk.
  - apply Forall_forall. intros y Hy.
    destruct (In_nth _ _ 0 Hy) as (j & Hj & <-). now apply Hle.
Qed.

(** [softmax] never inverts the order of two logits: a logit no greater
    than another gets a probability no greater; so the first index of the
    greatest logit carries the greatest probability. *)
Theorem softmax_never_inverts_order (raw p : list R) :
  softmax raw = Some p ->
  (forall i j, (i < length raw)%nat -> (j < length raw)%nat ->
               nth i raw 0 <= nth j raw 0 -> nth i p 0 <= nth j p 0) /\
  exists k, argmax raw = Some k /\ amax p = Some (nth k p 0).
Proof.
  intros H. assert (Hne : raw <> []) by (intros ->; discriminate).
  destruct (softmax_as_map _ _ H) as (g & Hg & ->).
  assert (Hmono : forall a b, a <= b -> g a <= g b).
  { intros a b [Hlt| ->]; [left; now apply Hg | right; reflexivity]. }
  assert (Hnth : forall i, (i < length raw)%nat ->
                           nth i (map g raw) 0 = g (nth i raw 0)).
  { intros i Hi. rewrite (nth_indep (map g raw) 0 (g 0))
      by (rewrite length_map; lia). apply map_nth. }
  split.
  - intros i j Hi Hj Hle. rewrite !Hnth by assumption. now apply Hmono.
  - destruct (argmax_some raw Hne) as [k Hk]. exists k. split; [exact Hk|].
    destruct (argmax_first raw k Hk) as (Hlt & Hmax & _).
    apply amax_is_max in Hmax as [_ Hall]. rewrite Forall_forall in Hall.
    destruct (amax (map g raw)) as [m|] eqn:Em.
    2:{ destruct raw; [congruence | discriminate]. }
    f_equal. apply (is_max_unique _ _ (map g raw)); [now apply amax_is_max|].
    split.
    + apply nth_In. rewrite length_map. exact Hlt.
    + apply Forall_forall. intros y Hy. apply in_map_iff in Hy as (x & <- & Hx).
      rewrite Hnth by assumption. apply Hmono. now apply Hall.
Qed.

Lemma softmax_never_inverts_order_witness :
  exists p, softmax [1; 3; 2] = Some p /\
            exists k, argmax [1; 3; 2] = Some k /\ amax p = Some (nth k p 0).
Proof.
  refine (ex_intro _ _ (conj eq_refl _)).
  exact (proj2 (softmax_never_inverts_order [1; 3; 2] _ eq_refl)).
Defined.

(** ** One candidate (lines 265-277), further *)

(** [evaluate] raises on an empty output vector and on nothing else,
    whatever the labels. *)
Theorem evaluate_raises_iff_empty (labels : list string) (name : string)
    (raw : list R) :
  evaluate labels name raw = None <-> raw = [].
Proof.
  split.
  - intros H. destruct raw as [|x t]; [reflexivity|].
    destruct (evaluate_total labels name (x :: t)) as [r Hr]; [discriminate|].
    congruence.
  - intros ->. unfold evaluate, probs_of.
    destruct (already_prob []); reflexivity.
Qed.

(** The top-1 confidence is 100 times the greatest probability.  When the
    probabilities come from [softmax] it lies in (0, 100]; when the raw
    output was taken as probabilities it is 100 times the greatest raw
    value, whatever that is. *)
Theorem top_conf_is_max_probability (labels : list string) (name : string)
    (raw : list R) (r : result) :
  evaluate labels name raw = Some r ->
  amax (r_probs r) = Some (r_top_conf r / 100) /\
  (already_prob raw = false -> 0 < r_top_conf r <= 100) /\
  (already_prob raw = true -> amax raw = Some (r_top_conf r / 100)).
Proof.
  intros H.
  apply evaluate_inv in H
    as (probs & s & i & lbl & p & Hp & _ & Hi & _ & Hn & ->).
  simpl.
  assert (Hmax : amax probs = Some (p * 100 / 100)).
  { destruct (argmax_first probs i Hi) as (Hlt & Ha & _).
    rewrite Ha. f_equal.
    rewrite (nth_error_nth _ _ 0 Hn). lra. }
  split; [exact Hmax|]. unfold probs_of in Hp. split; intros E; rewrite E in Hp.
  - pose proof (softmax_entries raw probs Hp) as Hall.
    rewrite Forall_forall in Hall.
    specialize (Hall p (nth_error_In _ _ Hn)). lra.
  - injection Hp as <-. exact Hmax.
Qed.

Lemma top_conf_is_max_probability_witness :
  evaluate ["60kg"; "61kg"]%string "letterbox" [0; 1]
  = Some (mkResult (1/2) "letterbox" "61kg" 100 [0; 1] [0; 1] [1; 0]%nat) /\
  amax [0; 1] = Some (100 / 100).
Proof.
  split; [exact evaluate_certain2|].
  exact (proj1 (top_conf_is_max_probability _ _ _ _ evaluate_certain2)).
Defined.

Lemma top3_head (p : list R) (order : list nat) (i : nat) :
  sorts_ascending p order -> argmax p = Some i ->
  exists h rest,
    rev (last3 order) = h :: rest /\ nth h p 0 = nth i p 0.
Proof.
  intros Horder Hi. destruct (argmax_first p i Hi) as (Hlt & Hmax & _).
  apply amax_is_max in Hmax as [_ Hall]. rewrite Forall_forall in Hall.
  destruct (top3_from_order p order Horder) as (Hlen & _ & Hin & Hs & Hout).
  destruct (rev (last3 order)) as [|h rest] eqn:Et.
  { cbn [length] in Hlen. lia. }
  exists h, rest. split; [reflexivity|].
  assert (Hh : (h < length p)%nat) by (apply Hin; now left).
  assert (Hle : nth h p 0 <= nth i p 0) by (apply Hall; now apply nth_In).
  assert (Hge : nth i p 0 <= nth h p 0).
  { destruct (Nat.eq_dec i h) as [ -> |Hne]; [lra|].
    destruct (in_dec Nat.eq_dec i rest) as [Hir|Hnir].
    - apply StronglySorted_inv in Hs as [_ Hs].
      rewrite Forall_forall in Hs. now apply Hs.
    - apply Hout; [now left | assumption |].
      intros [Heq|Hir]; [congruence | contradiction]. }
  lra.
Qed.

(** Whatever order the sort returns among equal values, the first entry
    of the top three carries the same probability as the top-1 index; it
    is the top-1 index itself when the maximum is attained once, and may
    be another index of the maximum otherwise. *)
Theorem top3_head_vs_top1 (labels : list string) (name : string)
    (raw : list R) (r : result) (order : list nat) :
  evaluate labels name raw = Some r ->
  sorts_ascending (r_probs r) order ->
  exists i h rest,
    argmax (r_probs r) = Some i /\ rev (last3 order) = h :: rest /\
    nth h (r_probs r) 0 = nth i (r_probs r) 0 /\
    ((forall j, j <> i -> (j < length (r_probs r))%nat ->
                nth j (r_probs r) 0 < nth i (r_probs r) 0) -> h = i).
Proof.
  intros H Horder.
  apply evaluate_inv in H
    as (probs & s & i & lbl & p & _ & _ & Hi & _ & _ & ->).
  simpl in *. destruct (top3_head probs order i Horder Hi)
    as (h & rest & Et & Heq).
  exists i, h, rest. repeat split; try assumption.
  intros Huniq. destruct (Nat.eq_dec h i) as [|Hne]; [assumption|].
  assert (Hh : (h < length probs)%nat).
  { destruct (top3_from_order probs order Horder) as (_ & _ & Hin & _).
    apply Hin. rewrite Et. now left. }
  specialize (Huniq h Hne Hh). lra.
Qed.

Lemma top3_head_vs_top1_witness :
  evaluate ["60kg"; "61kg"]%string "letterbox" [0; 1]
  = Some (mkResult (1/2) "letterbox" "61kg" 100 [0; 1] [0; 1] [1; 0]%nat) /\
  sorts_ascending [0; 1] [0; 1]%nat /\
  exists i h rest,
    argmax [0; 1] = Some i /\ rev (last3 [0; 1]%nat) = h :: rest /\
    nth h [0; 1] 0 = nth i [0; 1] 0 /\
    ((forall j, j <> i -> (j < 2)%nat -> nth j [0; 1] 0 < nth i [0; 1] 0) ->
     h = i).
Proof.
  split; [exact evaluate_certain2|]. split; [exact order_10_sorts_01|].
  exact (top3_head_vs_top1 _ _ _ _ _ evaluate_certain2 order_10_sorts_01).
Defined.

(** ** The run (lines 250-320), further *)

Lemma evaluate_empty (labels : list string) (name : string) :
  evaluate labels name [] = None.
Proof.
  unfold evaluate, probs_of. destruct (already_prob []); reflexivity.
Qed.

Lemma eval_all_none (labels : list string) (l : list (string * list R))
    (name : string) :
  In (name, []) l -> eval_all labels l = None.
Proof.
  induction l as [|[n raw] rest IH]; [contradiction|].
  simpl. intros [[= -> ->]|Hin].
  - now rewrite evaluate_empty.
  - rewrite (IH Hin). destruct (evaluate labels n raw); reflexivity.
Qed.

(** An empty output vector is not isolated the way a failed inference
    call is: if any call returns an empty vector the loop raises and the
    run prints neither ranking nor recommendation, whatever the other
    candidates gave. *)
Theorem empty_output_aborts_run (tensor : Type)
    (astype : tensor -> tensor) (run_inference : tensor -> string + list R)
    (labels : list string) (cs : list (string * tensor)) (name : string) :
  In (name, []) (succeeded tensor astype run_inference cs) ->
  loop tensor astype run_inference labels init_state cs = None /\
  main tensor astype run_inference labels cs = None.
Proof.
  intros Hin. apply (eval_all_none labels) in Hin.
  assert (Hloop : loop tensor astype run_inference labels init_state cs = None).
  { rewrite loop_eq, Hin. reflexivity. }
  split; [exact Hloop|]. unfold main. now rewrite Hloop.
Qed.

Lemma empty_output_aborts_run_witness :
  In ("letterbox"%string, [])
    (succeeded nat (fun t => t)
       (fun t => match t with 0%nat => inr [] | _ => inr [0; 1] end)
       [("stretch", 1); ("letterbox", 0)]%string%nat) /\
  main nat (fun t => t)
    (fun t => match t with 0%nat => inr [] | _ => inr [0; 1] end)
    demo_labels [("stretch", 1); ("letterbox", 0)]%string%nat = None.
Proof.
  assert (Hin : In ("letterbox"%string, [])
    (succeeded nat (fun t => t)
       (fun t => match t with 0%nat => inr [] | _ => inr [0; 1] end)
       [("stretch", 1); ("letterbox", 0)]%string%nat)).
  { simpl. auto. }
  split; [exact Hin|].
  exact (proj2 (empty_output_aborts_run nat (fun t => t) _ demo_labels _ _ Hin)).
Defined.

Lemma print_top3_only_tops (labels : list string) (r : result)
    (t : list nat) (i : nat) (lines : list line) :
  print_top3 labels i r t = Some lines ->
  forall n r' b, ~ In (PRank n r' b) lines.
Proof.
  revert i lines; induction t as [|idx rest IH]; intros i lines; simpl.
  - intros [= <-] n r' b [].
  - destruct (resolve_label labels idx); simpl; [|discriminate].
    destruct (nth_error (r_probs r) idx); simpl; [|discriminate].
    destruct (print_top3 labels (S i) r rest) as [more|] eqn:E; simpl;
      [|discriminate].
    intros [= <-] n r' b [Heq|Hin]; [discriminate|].
    exact (IH _ _ E n r' b Hin).
Qed.

Lemma print_ranking_ranks (labels : list string) (rs : list result)
    (k : nat) (lines : list line) :
  print_ranking labels k rs = Some lines ->
  forall n r b, In (PRank n r b) lines ->
  exists i, nth_error rs i = Some r /\ n = S (k + i) /\
            b = (k + i =? 0)%nat.
Proof.
  revert k lines; induction rs as [|r0 rest IH]; intros k lines; simpl.
  - intros [= <-] n r b [].
  - destruct (print_top3 labels 0 r0 (r_top3 r0)) as [tops|] eqn:Et; simpl;
      [|discriminate].
    destruct (print_ranking labels (S k) rest) as [more|] eqn:Em; simpl;
      [|discriminate].
    intros [= <-] n r b [Heq|Hin].
    + injection Heq as <- <- <-. exists 0%nat.
      rewrite Nat.add_0_r. auto.
    + apply in_app_or in Hin as [Hin|Hin].
      * exfalso. exact (print_top3_only_tops _ _ _ _ _ Et n r b Hin).
      * destruct (IH _ _ Em n r b Hin) as (i & Hi & -> & ->).
        exists (S i). simpl. rewrite Nat.add_succ_r. auto.
Qed.

Lemma loop_best_head (tensor : Type) (astype : tensor -> tensor)
    (run_inference : tensor -> string + list R) (labels : list string)
    (cs : list (string * tensor)) (st : loop_state) (h : result)
    (t : list result) :
  loop tensor astype run_inference labels init_state cs = Some st ->
  ranked st = h :: t ->
  best_of st = fields h.
Proof.
  intros Hst Hr.
  destruct (loop_init _ _ _ _ _ _ Hst) as (rs & Hrs & ->).
  unfold ranked in Hr. simpl in Hr.
  destruct (sort_desc_head _ _ _ Hr) as (l1 & l2 & -> & H1 & H2).
  assert (Hh : -999 < r_spread h).
  { pose proof (eval_all_spread_nonneg _ _ _ Hrs) as Hall.
    apply Forall_app in Hall as [_ Hall].
    apply Forall_cons_iff in Hall as [Hh _]. lra. }
  unfold best_of at 1. simpl.
  unfold best_of, init_state. simpl.
  rewrite (fold_better_first_max l1 l2 h (-999, (""%string, ""%string, 0)))
    by assumption.
  reflexivity.
Qed.

(** In the printed report only rank 1 carries the BEST marker, and the
    recommendation names that same candidate, with its label, confidence
    and spread, and classifies that spread. *)
Theorem best_marker_is_recommended (tensor : Type)
    (astype : tensor -> tensor) (run_inference : tensor -> string + list R)
    (labels : list string) (cs : list (string * tensor)) (out : list line) :
  main tensor astype run_inference labels cs = Some out ->
  forall n r, In (PRank n r true) out ->
    n = 1%nat /\
    In (PBest (r_name r) (r_top_lbl r) (r_top_conf r) (r_spread r)) out /\
    In (PVerdict (classify (r_spread r)) (r_name r) (r_spread r)) out.
Proof.
  unfold main.
  destruct (loop tensor astype run_inference labels init_state cs)
    as [st|] eqn:Hst; simpl; [|discriminate].
  destruct (print_ranking labels 0 (ranked st)) as [lines|] eqn:Hl; simpl;
    [|discriminate].
  intros [= <-] n r Hin.
  destruct Hin as [Heq|Hin]; [discriminate|].
  apply in_app_or in Hin as [Hin|Hin].
  { destruct (loop_init _ _ _ _ _ _ Hst) as (rs & _ & ->). simpl in Hin.
    apply in_map_iff in Hin as (c & Hc & _). discriminate. }
  apply in_app_or in Hin as [Hin|Hin].
  2:{ simpl in Hin. intuition discriminate. }
  destruct (print_ranking_ranks _ _ _ _ Hl n r true Hin) as (i & Hi & -> & Hb).
  simpl in Hb. symmetry in Hb. apply Nat.eqb_eq in Hb. subst i.
  split; [reflexivity|].
  destruct (ranked st) as [|h t] eqn:Hr; [discriminate|].
  injection Hi as ->.
  pose proof (loop_best_head _ _ _ _ _ _ _ _ Hst Hr) as Hb.
  unfold best_of, fields in Hb. injection Hb as E1 E2 E3 E4.
  split; right; apply in_or_app; right; apply in_or_app; right;
    unfold recommendation; rewrite E1, E2, E3, E4; simpl; auto.
Qed.

Example demo_main :
  main nat (fun t => t) demo_infer demo_labels demo_candidates
  = Some demo_out.
Proof.
  unfold main. rewrite demo_loop. simpl bind. rewrite demo_ranked.
  unfold demo_out, demo_letterbox, demo_short, demo_center, demo_labels,
    recommendation, classify, demo_state.
  reval. req.
Qed.

Lemma best_marker_is_recommended_witness :
  main nat (fun t => t) demo_infer demo_labels demo_candidates
  = Some demo_out /\
  In (PRank 1 demo_letterbox true) demo_out /\
  In (PBest "letterbox" "61kg" 100 (1/2)) demo_out.
Proof.
  assert (Hin : In (PRank 1 demo_letterbox true) demo_out)
    by (simpl; auto).
  split; [exact demo_main|]. split; [exact Hin|].
  exact (proj1 (proj2
    (best_marker_is_recommended nat (fun t => t) demo_infer demo_labels
       demo_candidates demo_out demo_main 1%nat demo_letterbox Hin))).
Defined.

(** ** Labels *)

Section StripFacts.
Variable isspace : ascii -> bool.

Lemma lstrip_hd_ok (l : list ascii) : hd_ok isspace (lstrip_chars isspace l).
Proof.
  induction l as [|c t IH]; simpl; [exact I|].
  destruct (isspace c) eqn:E; [exact IH | exact E].
Qed.

Lemma lstrip_fix (l : list ascii) : hd_ok isspace l -> lstrip_chars isspace l = l.
Proof.
  destruct l as [|c t]; simpl; [reflexivity|].
  now intros ->.
Qed.

Lemma lstrip_suffix (l : list ascii) :
  exists pre, l = pre ++ lstrip_chars isspace l /\ Forall (fun c => isspace c = true) pre.
Proof.
  induction l as [|c t IH]; simpl.
  - exists []. split; [reflexivity | constructor].
  - destruct (isspace c) eqn:E.
    + destruct IH as (pre & Hpre & Hall). exists (c :: pre).
      split; [simpl; now rewrite <- Hpre | now constructor].
    + exists []. split; [reflexivity | constructor].
Qed.

Lemma lstrip_nil_iff (l : list ascii) :
  lstrip_chars isspace l = [] <-> Forall (fun c => isspace c = true) l.
Proof.
  induction l as [|c t IH]; simpl.
  - split; [constructor | reflexivity].
  - destruct (isspace c) eqn:E.
    + rewrite IH. split; [now constructor | now inversion 1].
    + split; [discriminate | inversion 1; congruence].
Qed.

Lemma strip_chars_hd_ok (l : list ascii) :
  hd_ok isspace (strip_chars isspace l) /\ hd_ok isspace (rev (strip_chars isspace l)).
Proof.
  unfold strip_chars. rewrite rev_involutive.
  split; [|apply lstrip_hd_ok].
  destruct (lstrip_suffix (rev (lstrip_chars isspace l))) as (pre & Hpre & _).
  apply (f_equal (@rev ascii)) in Hpre.
  rewrite rev_involutive, rev_app_distr in Hpre.
  pose proof (lstrip_hd_ok l) as Hm. rewrite Hpre in Hm.
  destruct (rev (lstrip_chars isspace (rev (lstrip_chars isspace l)))); [exact I | exact Hm].
Qed.

Lemma strip_chars_fix (l : list ascii) :
  hd_ok isspace l -> hd_ok isspace (rev l) -> strip_chars isspace l = l.
Proof.
  intros H1 H2. unfold strip_chars.
  rewrite (lstrip_fix l H1), (lstrip_fix (rev l) H2). apply rev_involutive.
Qed.

Lemma strip_chars_nil_iff (l : list ascii) :
  strip_chars isspace l = [] <-> Forall (fun c => isspace c = true) l.
Proof.
  unfold strip_chars. split.
  - intros H. apply (f_equal (@rev ascii)) in H.
    rewrite rev_involutive in H. simpl in H.
    apply lstrip_nil_iff in H. apply lstrip_nil_iff.
    pose proof (lstrip_hd_ok l) as Hm.
    destruct (lstrip_chars isspace l) as [|c t]; [reflexivity|].
    rewrite Forall_forall in H. simpl in Hm.
    rewrite H in Hm; [discriminate|]. apply in_rev. rewrite rev_involutive.
    now left.
  - intros H. apply lstrip_nil_iff in H. now rewrite H.
Qed.

Lemma strip_trimmed (s : string) : trimmed isspace (strip isspace s).
Proof.
  unfold trimmed, strip. rewrite list_ascii_of_string_of_list_ascii.
  apply strip_chars_hd_ok.
Qed.

Lemma strip_fix (s : string) : trimmed isspace s -> strip isspace s = s.
Proof.
  intros [H1 H2]. unfold strip. rewrite strip_chars_fix by assumption.
  apply string_of_list_ascii_of_string.
Qed.

Lemma strip_empty_iff (s : string) :
  strip isspace s = ""%string <-> blank isspace s.
Proof.
  unfold strip, blank. rewrite <- strip_chars_nil_iff. split.
  - intros H. apply (f_equal list_ascii_of_string) in H.
    now rewrite list_ascii_of_string_of_list_ascii in H.
  - now intros ->.
Qed.

Lemma load_labels_in (lines : list string) (lbl : string) :
  In lbl (load_labels isspace lines) <->
  exists line, In line lines /\ lbl = strip isspace line /\ lbl <> ""%string.
Proof.
  unfold load_labels. rewrite in_map_iff. split.
  - intros (line & <- & Hin). apply filter_In in Hin as [Hin Hne].
    exists line. repeat split; [assumption|].
    apply negb_true_iff, String.eqb_neq in Hne. exact Hne.
  - intros (line & Hin & -> & Hne). exists line. split; [reflexivity|].
    apply filter_In. split; [assumption|].
    now apply negb_true_iff, String.eqb_neq.
Qed.
End StripFacts.

(** Every loaded label is the stripped form of a line of the file, is
    not empty, neither starts nor ends with whitespace, and is left
    unchanged by another [strip]. *)
Theorem load_labels_clean (isspace : ascii -> bool) (lines : list string)
    (lbl : string) :
  In lbl (load_labels isspace lines) ->
  (exists line, In line lines /\ lbl = strip isspace line) /\
  lbl <> ""%string /\
  trimmed isspace lbl /\
  strip isspace lbl = lbl.
Proof.
  intros Hin. apply load_labels_in in Hin as (line & Hin & -> & Hne).
  split; [now exists line|]. split; [exact Hne|].
  split; [apply strip_trimmed|]. apply strip_fix, strip_trimmed.
Qed.

Example demo_load_labels :
  load_labels ascii_isspace
    ["60kg" ++ String "010" ""; String "010" "";
     "  61 kg " ++ String "010" ""]%string
  = ["60kg"; "61 kg"]%string.
Proof. reflexivity. Qed.

Lemma load_labels_clean_witness :
  In "61 kg"%string
    (load_labels ascii_isspace
       ["60kg" ++ String "010" ""; String "010" "";
        "  61 kg " ++ String "010" ""]%string) /\
  strip ascii_isspace "61 kg" = "61 kg"%string.
Proof.
  assert (Hin : In "61 kg"%string
                  (load_labels ascii_isspace
                     ["60kg" ++ String "010" ""; String "010" "";
                      "  61 kg " ++ String "010" ""]%string)).
  { rewrite demo_load_labels. simpl. auto. }
  split; [exact Hin|].
  exact (proj2 (proj2 (proj2 (load_labels_clean _ _ _ Hin)))).
Defined.

(** Loading is idempotent: the labels, read again as lines, load to
    themselves. *)
Theorem load_labels_idempotent (isspace : ascii -> bool)
    (lines : list string) :
  load_labels isspace (load_labels isspace lines)
  = load_labels isspace lines.
Proof.
  assert (H : forall l, Forall (fun s => trimmed isspace s /\ s <> ""%string) l ->
                        load_labels isspace l = l).
  { induction 1 as [|s t [Ht Hne] _ IH]; [reflexivity|].
    unfold load_labels in *. simpl. rewrite (strip_fix _ _ Ht).
    apply String.eqb_neq in Hne. rewrite Hne. simpl.
    now rewrite (strip_fix _ _ Ht), IH. }
  apply H. apply Forall_forall. intros lbl Hin.
  apply load_labels_in in Hin as (line & _ & -> & Hne).
  split; [apply strip_trimmed | exact Hne].
Qed.

Lemma load_labels_nil_iff (isspace : ascii -> bool)
    (lines : list string) :
  load_labels isspace lines = [] <-> Forall (blank isspace) lines.
Proof.
  unfold load_labels. split.
  - intros H. apply map_eq_nil in H. apply Forall_forall. intros line Hin.
    apply strip_empty_iff.
    destruct (String.eqb (strip isspace line) "") eqn:E;
      [now apply String.eqb_eq|].
    assert (Hf : In line (filter (fun line =>
                   negb (String.eqb (strip isspace line) "")) lines)).
    { apply filter_In. split; [assumption|]. now rewrite E. }
    rewrite H in Hf. contradiction.
  - induction 1 as [|line t Hb _ IH]; [reflexivity|].
    simpl. apply strip_empty_iff in Hb. rewrite Hb. simpl. exact IH.
Qed.

(** No label is loaded exactly when every line of the file is blank (only
    whitespace), an empty file included; the number of labels never
    exceeds the number of lines. *)
Theorem load_labels_empty_iff_blank (isspace : ascii -> bool)
    (lines : list string) :
  (load_labels isspace lines = [] <-> Forall (blank isspace) lines) /\
  (length (load_labels isspace lines) <= length lines)%nat.
Proof.
  split; [apply load_labels_nil_iff|].
  unfold load_labels. rewrite length_map. apply filter_length_le.
Qed.

(** The labels step falls back to the index labels only when the file is
    missing.  It raises when the file cannot be read for another reason,
    and when it is read but holds no label (every line blank, or no line
    at all): [labels[0]] is then an [IndexError] that the
    [except FileNotFoundError] does not catch.  With at least one label
    it returns the loaded labels. *)
Theorem labels_step_fallback_only_when_missing (isspace : ascii -> bool)
    (file : labels_file) (n_out : nat) :
  (labels_step isspace file n_out = None <->
   file = Unreadable \/
   exists lines, file = Lines lines /\ Forall (blank isspace) lines) /\
  (file = NotFound ->
   labels_step isspace file n_out = Some (fallback_labels n_out, PNoLabels)) /\
  (forall lines, file = Lines lines -> ~ Forall (blank isspace) lines ->
     exists first last,
       labels_step isspace file n_out
       = Some (load_labels isspace lines,
               PLabels (length (load_labels isspace lines)) first last) /\
       hd_error (load_labels isspace lines) = Some first).
Proof.
  split; [|split; [now intros ->|]].
  - destruct file as [| |lines]; simpl.
    + split; [discriminate|]. intros [H|(l & H & _)]; discriminate.
    + split; [now left | reflexivity].
    + pose proof (load_labels_nil_iff isspace lines) as Hiff.
      destruct (load_labels isspace lines) as [|first rest] eqn:E; simpl.
      * split; [|reflexivity]. intros _. right. exists lines.
        split; [reflexivity | now apply Hiff].
      * destruct (nth_error (first :: rest) (length rest - 0)) as [lst|] eqn:En;
          simpl.
        -- split; [discriminate|]. intros [H|(l & [= <-] & Hb)]; [discriminate|].
           apply Hiff in Hb. discriminate.
        -- apply nth_error_None in En. simpl in En. lia.
  - intros lines -> Hnb. simpl.
    pose proof (load_labels_nil_iff isspace lines) as Hiff.
    destruct (load_labels isspace lines) as [|first rest] eqn:E.
    + exfalso. apply Hnb. now apply Hiff.
    + simpl.
      destruct (nth_error (first :: rest) (length rest - 0)) as [lst|] eqn:En;
        simpl.
      * now exists first, lst.
      * apply nth_error_None in En. simpl in En. lia.
Qed.

Lemma str_of_nat_inj (a b : nat) : str_of_nat a = str_of_nat b -> a = b.
Proof.
  unfold str_of_nat. intros H.
  apply (f_equal NilEmpty.uint_of_string) in H.
  rewrite !NilEmpty.usu in H. injection H as H.
  apply (f_equal Nat.of_uint) in H. now rewrite !Unsigned.of_to in H.
Qed.

Lemma fallback_labels_nth (n i : nat) :
  (i < n)%nat -> nth_error (fallback_labels n) i = Some (str_of_nat i).
Proof.
  intros Hi. unfold fallback_labels.
  rewrite nth_error_map, nth_error_seq.
  now rewrite (proj2 (Nat.ltb_lt i n) Hi).
Qed.

(** The fallback labels are the decimal numerals of the output indices:
    as many as there are outputs, pairwise distinct, and an index below
    that number resolves to its own numeral (one at or past it to
    ["idx_<i>"]). *)
Theorem fallback_labels_are_indices (n : nat) :
  length (fallback_labels n) = n /\
  NoDup (fallback_labels n) /\
  forall i, resolve_label (fallback_labels n) i
            = Some (if (i <? n)%nat then str_of_nat i
                    else ("idx_" ++ str_of_nat i)%string).
Proof.
  assert (Hlen : length (fallback_labels n) = n).
  { unfold fallback_labels. now rewrite length_map, length_seq. }
  split; [exact Hlen|]. split.
  - unfold fallback_labels. apply NoDup_map_NoDup_ForallPairs; [|apply seq_NoDup].
    intros a b _ _. apply str_of_nat_inj.
  - intros i. unfold resolve_label. rewrite Hlen.
    destruct (i <? n)%nat eqn:E; [|reflexivity].
    apply fallback_labels_nth. now apply Nat.ltb_lt.
Qed.

(** With the fallback labels of an output of the same length, the top-1
    label of an evaluated candidate is the numeral of its top-1 index,
    never a synthetic ["idx_"] string. *)
Theorem fallback_top_label_is_index (name : string) (raw : list R)
    (r : result) :
  evaluate (fallback_labels (length raw)) name raw = Some r ->
  exists i, argmax (r_probs r) = Some i /\ (i < length raw)%nat /\
            r_top_lbl r = str_of_nat i.
Proof.
  intros H.
  apply evaluate_inv in H
    as (probs & s & i & lbl & p & Hp & _ & Hi & Hl & _ & ->).
  simpl. exists i.
  pose proof (argmax_range _ _ Hi) as Hlt.
  rewrite (probs_of_length _ _ Hp) in Hlt.
  split; [exact Hi|]. split; [exact Hlt|].
  unfold resolve_label in Hl.
  assert (Hlen : length (fallback_labels (length raw)) = length raw).
  { unfold fallback_labels. now rewrite length_map, length_seq. }
  rewrite Hlen, (proj2 (Nat.ltb_lt _ _) Hlt) in Hl.
  rewrite (fallback_labels_nth _ _ Hlt) in Hl. now injection Hl as <-.
Qed.

Example evaluate_fallback2 :
  evaluate (fallback_labels 2) "letterbox" [0; 1]
  = Some (mkResult (1/2) "letterbox" "1" 100 [0; 1] [0; 1] [1; 0]%nat).
Proof.
  unfold evaluate, probs_of, already_prob, spread_of, top3_of, argsort, mean.
  reval. do 2 f_equal; rsolve.
Qed.

Lemma fallback_top_label_is_index_witness :
  evaluate (fallback_labels (length [0; 1])) "letterbox" [0; 1]
  = Some (mkResult (1/2) "letterbox" "1" 100 [0; 1] [0; 1] [1; 0]%nat) /\
  exists i, argmax [0; 1] = Some i /\ (i < 2)%nat /\
            "1"%string = str_of_nat i.
Proof.
  split; [exact evaluate_fallback2|].
  exact (fallback_top_label_is_index "letterbox" [0; 1] _ evaluate_fallback2).
Defined.

(** ** Crop geometry *)

(** For any image size, the centre crop is a square whose side is the
    shorter side of the image; it lies inside the image, is centred to
    within one pixel, and spans the shorter side entirely.  A square image
    is taken whole. *)
Theorem center_crop_box_centred (w h : Z) :
  centred_square w h (Z.min w h) (center_crop_box w h) /\
  (let '(x0, y0, _, _) := center_crop_box w h in
   (w <= h -> x0 = 0)%Z /\ (h <= w -> y0 = 0)%Z) /\
  (w = h -> center_crop_box w h = (0, 0, w, h)%Z).
Proof.
  unfold center_crop_box, centred_square.
  pose proof (Z.div_mod (w - Z.min w h) 2 ltac:(lia)) as Hw.
  pose proof (Z.mod_pos_bound (w - Z.min w h) 2 ltac:(lia)) as Hwm.
  pose proof (Z.div_mod (h - Z.min w h) 2 ltac:(lia)) as Hh.
  pose proof (Z.mod_pos_bound (h - Z.min w h) 2 ltac:(lia)) as Hhm.
  split; [|split].
  - repeat split; lia.
  - split; intros Hle.
    + replace (w - Z.min w h)%Z with 0%Z by lia. reflexivity.
    + replace (h - Z.min w h)%Z with 0%Z by lia. reflexivity.
  - intros ->. rewrite Z.min_id, Z.sub_diag. reflexivity.
Qed.

Lemma int_truediv_bounds (a b q : Z) :
  (0 <= a)%Z -> (0 < b)%Z -> int_truediv a b = Some q ->
  (b * q <= a < b * (q + 1))%Z.
Proof.
  intros Ha Hb. unfold int_truediv.
  destruct (b =? 0)%Z eqn:E; [discriminate|]. intros [= <-].
  rewrite Z.quot_div_nonneg by lia.
  pose proof (Z.div_mod a b ltac:(lia)) as Hd.
  pose proof (Z.mod_pos_bound a b Hb) as Hm. lia.
Qed.

(** The short-side resize raises exactly when the shorter side of the
    image is 0 (a division by zero), whatever the target size. *)
Theorem short_side_raises_iff_zero_side (w h size : Z) :
  short_side_geometry w h size = None <-> Z.min w h = 0%Z.
Proof.
  unfold short_side_geometry, short_side_dims, int_truediv.
  destruct (w <? h)%Z eqn:E;
    [apply Z.ltb_lt in E | apply Z.ltb_ge in E].
  - destruct (w =? 0)%Z eqn:E0; simpl;
      [apply Z.eqb_eq in E0 | apply Z.eqb_neq in E0];
      split; intros; try discriminate; try reflexivity; lia.
  - destruct (h =? 0)%Z eqn:E0; simpl;
      [apply Z.eqb_eq in E0 | apply Z.eqb_neq in E0];
      split; intros; try discriminate; try reflexivity; lia.
Qed.

Lemma short_side_box_centred (nw nh size : Z) :
  (size <= nw)%Z -> (size <= nh)%Z ->
  centred_square nw nh size (short_side_box nw nh size).
Proof.
  intros Hw Hh. unfold short_side_box, centred_square.
  pose proof (Z.div_mod (nw - size) 2 ltac:(lia)) as Hdw.
  pose proof (Z.mod_pos_bound (nw - size) 2 ltac:(lia)) as Hmw.
  pose proof (Z.div_mod (nh - size) 2 ltac:(lia)) as Hdh.
  pose proof (Z.mod_pos_bound (nh - size) 2 ltac:(lia)) as Hmh.
  repeat split; lia.
Qed.

(** For a non-empty image and a positive target size, the short-side
    resize makes the shorter side exactly [size] and scales the longer
    side in proportion, rounded down, so it is at least [size]; the crop
    is a [size] by [size] square inside the resized image, centred to
    within one pixel.  A square image is resized to [size] by [size] and
    taken whole. *)
Theorem short_side_geometry_sound (w h size : Z) :
  (0 < w)%Z -> (0 < h)%Z -> (0 < size)%Z ->
  exists nw nh box,
    short_side_geometry w h size = Some ((nw, nh), box) /\
    Z.min nw nh = size /\
    (w < h -> nw = size /\ nh * w <= h * size < (nh + 1) * w)%Z /\
    (h <= w -> nh = size /\ nw * h <= w * size < (nw + 1) * h)%Z /\
    centred_square nw nh size box /\
    (w = h -> (nw, nh) = (size, size) /\ box = (0, 0, size, size)%Z).
Proof.
  intros Hw Hh Hs. unfold short_side_geometry, short_side_dims.
  destruct (w <? h)%Z eqn:E;
    [apply Z.ltb_lt in E | apply Z.ltb_ge in E].
  - destruct (int_truediv (h * size) w) as [q|] eqn:Eq.
    2:{ unfold int_truediv in Eq. destruct (w =? 0)%Z eqn:E0;
          [apply Z.eqb_eq in E0; lia | discriminate]. }
    assert (H0 : (0 <= h * size)%Z) by nia.
    pose proof (int_truediv_bounds _ _ _ H0 Hw Eq) as Hq.
    assert (Hge : (size <= q)%Z) by nia.
    simpl. exists size, q, (short_side_box size q size).
    split; [reflexivity|]. split; [lia|]. split; [intros _; split; lia|].
    split; [lia|]. split; [apply short_side_box_centred; lia|]. lia.
  - destruct (int_truediv (w * size) h) as [q|] eqn:Eq.
    2:{ unfold int_truediv in Eq. destruct (h =? 0)%Z eqn:E0;
          [apply Z.eqb_eq in E0; lia | discriminate]. }
    assert (H0 : (0 <= w * size)%Z) by nia.
    pose proof (int_truediv_bounds _ _ _ H0 Hh Eq) as Hq.
    assert (Hge : (size <= q)%Z) by nia.
    simpl. exists q, size, (short_side_box q size size).
    split; [reflexivity|]. split; [lia|]. split; [lia|].
    split; [intros _; split; lia|].
    split; [apply short_side_box_centred; lia|].
    intros ->. assert (q = size) by nia. subst q.
    split; [reflexivity|]. unfold short_side_box.
    rewrite Z.sub_diag. reflexivity.
Qed.

Lemma short_side_geometry_sound_witness :
  (0 < 10)%Z /\ (0 < 20)%Z /\ (0 < 4)%Z /\
  exists nw nh box,
    short_side_geometry 10 20 4 = Some ((nw, nh), box) /\
    Z.min nw nh = 4%Z /\
    (10 < 20 -> nw = 4 /\ nh * 10 <= 20 * 4 < (nh + 1) * 10)%Z /\
    (20 <= 10 -> nh = 4 /\ nw * 20 <= 10 * 4 < (nw + 1) * 20)%Z /\
    centred_square nw nh 4 box /\
    (10 = 20 -> (nw, nh) = (4, 4) /\ box = (0, 0, 4, 4))%Z.
Proof.
  split; [lia|]. split; [lia|]. split; [lia|].
  apply (short_side_geometry_sound 10 20 4); lia.
Defined.

Example short_side_geometry_10x20 :
  short_side_geometry 10 20 4 = Some ((4, 8), (0, 2, 4, 6))%Z /\
  center_crop_box 10 20 = (0, 5, 10, 15)%Z.
Proof. split; reflexivity. Qed.

(** ** Normalizations and candidates *)

Lemma distinctb_NoDup (l : list string) : distinctb l = true -> NoDup l.
Proof.
  induction l as [|x t IH]; simpl; [constructor|].
  intros H. apply andb_true_iff in H as [Hx Ht].
  constructor; [|now apply IH].
  intros Hin. apply negb_true_iff in Hx.
  assert (E : existsb (String.eqb x) t = true).
  { apply existsb_exists. exists x. split; [assumption | apply String.eqb_refl]. }
  congruence.
Qed.

(** On an array of pixel values in [0, 255] each normalization keeps the
    number of pixels and lands in its range: the first leaves the array
    as it is, the second gives values in [-1, 1], the third in [0, 1],
    the ImageNet one in [-2.12, 2.64]. *)
Theorem variants_ranges (arr : image_array) (label : string) :
  Forall (channels_in 0 255) arr ->
  exists a2 a3 a4,
    map snd (variants arr label) = [arr; a2; a3; a4] /\
    length a2 = length arr /\ length a3 = length arr /\
    length a4 = length arr /\
    Forall (channels_in (-1) 1) a2 /\
    Forall (channels_in 0 1) a3 /\
    Forall (channels_in (-2.12) 2.64) a4.
Proof.
  intros Hin.
  exists (map (each (fun x => x / 127.5 - 1.0)) arr),
         (map (each (fun x => x / 255.0)) arr),
         (map standardize arr).
  split; [reflexivity|].
  rewrite !length_map. do 3 (split; [reflexivity|]).
  rewrite Forall_forall in Hin.
  repeat split; apply Forall_forall; intros q Hq;
    apply in_map_iff in Hq as ([[r g] b] & <- & Hp);
    specialize (Hin _ Hp);
    unfold channels_in, each, standardize, IN_MEAN, IN_STD in *; lra.
Qed.

Lemma variants_ranges_witness :
  Forall (channels_in 0 255) [(0, 128, 255); (255, 255, 255)] /\
  exists a2 a3 a4,
    map snd (variants [(0, 128, 255); (255, 255, 255)] "stretch    ")
    = [[(0, 128, 255); (255, 255, 255)]; a2; a3; a4] /\
    length a2 = 2%nat /\ length a3 = 2%nat /\ length a4 = 2%nat /\
    Forall (channels_in (-1) 1) a2 /\
    Forall (channels_in 0 1) a3 /\
    Forall (channels_in (-2.12) 2.64) a4.
Proof.
  assert (H : Forall (channels_in 0 255) [(0, 128, 255); (255, 255, 255)]).
  { repeat constructor; simpl; lra. }
  split; [exact H|].
  exact (variants_ranges _ "stretch    " H).
Defined.

(** Whatever the image, the candidate list has twenty entries, five
    spatial layouts times four normalizations in this order, and their
    names are pairwise distinct, so a name in the report identifies one
    candidate; each tensor has as many pixels as the array it is made
    from. *)
Theorem strategies_twenty_distinct
    (base base_cc base_lb base_ss : image_array) :
  length (strategies base base_cc base_lb base_ss) = 20%nat /\
  NoDup (map fst (strategies base base_cc base_lb base_ss)) /\
  map (fun c => length (snd c)) (strategies base base_cc base_lb base_ss)
  = repeat (length base) 4 ++ repeat (length base_cc) 4
    ++ repeat (length base_lb) 4 ++ repeat (length base_ss) 4
    ++ repeat (length base) 4.
Proof.
  split; [reflexivity|]. split.
  - apply distinctb_NoDup. vm_compute. reflexivity.
  - unfold strategies, variants, bgr. simpl. rewrite !length_map.
    reflexivity.
Qed.

(** Reversing the channels twice gives the array back, and it commutes
    with the three normalizations that treat all channels alike: the
    "stretch BGR" tensors of these are the "stretch" tensors with the
    channels reversed. *)
Theorem bgr_commutes_with_uniform (arr : image_array) (label : string) :
  bgr (bgr arr) = arr /\
  firstn 3 (map snd (variants (bgr arr) label))
  = map bgr (firstn 3 (map snd (variants arr label))).
Proof.
  split.
  - unfold bgr. rewrite map_map. rewrite <- (map_id arr) at 2.
    apply map_ext. now intros [[r g] b].
  - unfold variants, bgr. cbn [map snd firstn]. rewrite !map_map.
    apply f_equal2; [reflexivity|].
    apply f_equal2; [apply map_ext; now intros [[r g] b]|].
    apply f_equal2; [apply map_ext; now intros [[r g] b] | reflexivity].
Qed.

(** A resized image no larger than the canvas is pasted inside it and
    centred: on each axis the padding before and after differs by at most
    one pixel, the extra pixel after. *)
Theorem letterbox_paste_centred (size new_w new_h : Z) :
  (0 <= new_w <= size)%Z -> (0 <= new_h <= size)%Z ->
  let '(x, y) := letterbox_paste size new_w new_h in
  (0 <= x /\ x + new_w <= size /\ x <= size - (x + new_w) <= x + 1 /\
   0 <= y /\ y + new_h <= size /\ y <= size - (y + new_h) <= y + 1)%Z.
Proof.
  intros Hw Hh. unfold letterbox_paste.
  pose proof (Z.div_mod (size - new_w) 2 ltac:(lia)) as Hdw.
  pose proof (Z.mod_pos_bound (size - new_w) 2 ltac:(lia)) as Hmw.
  pose proof (Z.div_mod (size - new_h) 2 ltac:(lia)) as Hdh.
  pose proof (Z.mod_pos_bound (size - new_h) 2 ltac:(lia)) as Hmh.
  repeat split; lia.
Qed.

Lemma letterbox_paste_centred_witness :
  (0 <= 2 <= 4)%Z /\ (0 <= 4 <= 4)%Z /\
  let '(x, y) := letterbox_paste 4 2 4 in
  (0 <= x /\ x + 2 <= 4 /\ x <= 4 - (x + 2) <= x + 1 /\
   0 <= y /\ y + 4 <= 4 /\ y <= 4 - (y + 4) <= y + 1)%Z.
Proof.
  split; [lia|]. split; [lia|].
  apply (letterbox_paste_centred 4 2 4); lia.
Defined.
